(** * Tic-tac-toe: board model, minimax move selection and game session

    A shallow embedding of [src/tic_tac_toe_frontend/src/App.js]:
    [calculateWinner], [getAvailableMoves], [opponentOf], [evaluate],
    [minimax], [findBestMove] and the state handled by the [App]
    component ([handleMove], [resetGame], [handleModeChange] and its two
    game effects), with the [disabled] attribute of [Board] and [Square],
    [statusMessage], [toggleTheme] and the choice of the theme on mount.

    The JavaScript array [squares] is a [list cell]; reading [squares[i]]
    is stdpp's lookup and the assignment [squares[i] = v] is stdpp's
    insert.  Every assignment of the source is made at an index taken
    from [getAvailableMoves], hence inside the array (lemma
    [getAvailableMoves_lt]), where insert and the JavaScript assignment
    agree.  The search functions mutate the array they are given, so they
    are written in state-passing style and return the array next to their
    result. *)

From Stdlib Require Import ZArith Bool Lia.
From Stdlib Require Import String.
From Stdlib Require Sorted.
From stdpp Require Import base list.

Open Scope Z_scope.

(** ** Marks and cells *)

(** [PLAYERS = { X: 'X', O: 'O' }] *)
Inductive Player : Type := X | O.

(** A square holds [null] ([None]) or a player's mark. *)
Abbreviation cell := (option Player).

Definition Player_eqb (p q : Player) : bool :=
  match p, q with
  | X, X | O, O => true
  | _, _ => false
  end.

(** [===] on the values a square or [calculateWinner] can yield. *)
Definition cell_eqb (c d : cell) : bool :=
  match c, d with
  | None, None => true
  | Some p, Some q => Player_eqb p q
  | _, _ => false
  end.

(** [Array(9).fill(null)] *)
Definition EMPTY_BOARD : list cell := replicate 9 None.

(** [squares[i]] where only truthiness and [===] against a mark matter:
    an index outside the array reads [undefined], which is falsy and
    equal to no mark, like [null]. *)
Definition sq (squares : list cell) (i : nat) : cell :=
  match squares !! i with
  | Some c => c
  | None => None
  end.

(** ** Board model *)

Definition lines : list (nat * nat * nat) :=
  [ (0, 1, 2); (3, 4, 5); (6, 7, 8);
    (0, 3, 6); (1, 4, 7); (2, 5, 8);
    (0, 4, 8); (2, 4, 6) ]%nat.

Fixpoint scanLines (squares : list cell) (ls : list (nat * nat * nat)) : cell :=
  match ls with
  | [] => None
  | (a, b, c) :: rest =>
      match sq squares a with
      | Some p =>
          if cell_eqb (sq squares a) (sq squares b)
             && cell_eqb (sq squares a) (sq squares c)
          then Some p
          else scanLines squares rest
      | None => scanLines squares rest
      end
  end.

Definition calculateWinner (squares : list cell) : cell :=
  scanLines squares lines.

(** [squares[i] === null] for [i] inside the array. *)
Definition isNull (squares : list cell) (i : nat) : bool :=
  match squares !! i with
  | Some None => true
  | _ => false
  end.

Definition getAvailableMoves (squares : list cell) : list nat :=
  List.filter (isNull squares) (seq 0 (length squares)).

Definition opponentOf (player : Player) : Player :=
  match player with
  | X => O
  | O => X
  end.

(** ** Position evaluator *)

Definition evaluate (squares : list cell) (aiPlayer : Player) : Z :=
  let w := calculateWinner squares in
  if cell_eqb w (Some aiPlayer) then 10
  else if cell_eqb w (Some (opponentOf aiPlayer)) then -10
  else 0.

(** ** Search engine *)

(** The numbers the search handles: integers and the two infinities that
    initialise [best]. *)
Inductive num : Type :=
| NegInf
| Num (z : Z)
| PosInf.

Definition num_max (a b : num) : num :=
  match a, b with
  | PosInf, _ | _, PosInf => PosInf
  | NegInf, y => y
  | x, NegInf => x
  | Num x, Num y => Num (Z.max x y)
  end.

Definition num_min (a b : num) : num :=
  match a, b with
  | NegInf, _ | _, NegInf => NegInf
  | PosInf, y => y
  | x, PosInf => x
  | Num x, Num y => Num (Z.min x y)
  end.

(** [a > b] *)
Definition num_gtb (a b : num) : bool :=
  match a, b with
  | NegInf, _ => false
  | _, PosInf => false
  | Num x, Num y => x >? y
  | _, _ => true
  end.

(** The body shared by the two [for (const move of ...)] loops of
    [minimax]: write [mark] at [move], recurse, fold the value into
    [best] with [Math.max] or [Math.min], write [null] back. *)
Fixpoint searchLoop (rec : list cell -> option (num * list cell))
    (mark : Player) (pick : num -> num -> num)
    (moves : list nat) (best : num) (squares : list cell)
    : option (num * list cell) :=
  match moves with
  | [] => Some (best, squares)
  | move :: rest =>
      match rec (<[move := Some mark]> squares) with
      | None => None
      | Some (v, squares') =>
          searchLoop rec mark pick rest (pick best v) (<[move := None]> squares')
      end
  end.

(** [minimax] with a bound on the recursion depth; [None] when the bound
    is reached.  [depth] is an integer and the arithmetic on it is that
    of the integers: this is the arithmetic of the JavaScript numbers as
    long as [depth] and the results stay within [-2^53, 2^53]
    ([exactDepth]), which holds of the depths 0 to 9 that a search
    started by [findBestMove] reaches. *)
Fixpoint minimax_fuel (fuel : nat) (squares : list cell) (depth : Z)
    (isMax : bool) (aiPlayer : Player) : option (num * list cell) :=
  match fuel with
  | 0%nat => None
  | S fuel' =>
      let score := evaluate squares aiPlayer in
      if (score =? 10) || (score =? -10)
      then Some (Num (score - depth * Z.sgn score), squares)
      else if (length (getAvailableMoves squares) =? 0)%nat
      then Some (Num 0, squares)
      else if isMax then
        searchLoop (fun s => minimax_fuel fuel' s (depth + 1) false aiPlayer)
          aiPlayer num_max (getAvailableMoves squares) NegInf squares
      else
        let human := opponentOf aiPlayer in
        searchLoop (fun s => minimax_fuel fuel' s (depth + 1) true aiPlayer)
          human num_min (getAvailableMoves squares) PosInf squares
  end.

(** Each nested call has one more mark on the board, so a bound above the
    number of squares is never reached ([minimax_fuel_enough]). *)
Definition minimax (squares : list cell) (depth : Z) (isMax : bool)
    (aiPlayer : Player) : option (num * list cell) :=
  minimax_fuel (S (length squares)) squares depth isMax aiPlayer.

(** ** Move selector *)

(** The immediate win and immediate block loops of [findBestMove]:
    returns the move found, if any, and the array as the loop leaves it. *)
Fixpoint tryLoop (mark : Player) (moves : list nat) (squares : list cell)
    : option nat * list cell :=
  match moves with
  | [] => (None, squares)
  | move :: rest =>
      let squares1 := <[move := Some mark]> squares in
      if cell_eqb (calculateWinner squares1) (Some mark)
      then (Some move, <[move := None]> squares1)
      else tryLoop mark rest (<[move := None]> squares1)
  end.

(** The full minimax loop of [findBestMove]. *)
Fixpoint bestLoop (aiPlayer : Player) (moves : list nat)
    (bestVal : num) (bestMove : option nat) (squares : list cell)
    : option (option nat * list cell) :=
  match moves with
  | [] => Some (bestMove, squares)
  | move :: rest =>
      match minimax (<[move := Some aiPlayer]> squares) 0 false aiPlayer with
      | None => None
      | Some (moveVal, squares') =>
          let squares2 := <[move := None]> squares' in
          if num_gtb moveVal bestVal
          then bestLoop aiPlayer rest moveVal (Some move) squares2
          else bestLoop aiPlayer rest bestVal bestMove squares2
      end
  end.

(** The result is [null] ([None]) or a move, next to the array after the
    call. *)
Definition findBestMove (squares : list cell) (aiPlayer : Player)
    : option (option nat * list cell) :=
  let avail := getAvailableMoves squares in
  if (length avail =? 0)%nat then Some (None, squares)
  else
    match tryLoop aiPlayer avail squares with
    | (Some move, squares1) => Some (Some move, squares1)
    | (None, squares1) =>
        let opp := opponentOf aiPlayer in
        match tryLoop opp avail squares1 with
        | (Some move, squares2) => Some (Some move, squares2)
        | (None, squares2) =>
            bestLoop aiPlayer avail NegInf (avail !! 0%nat) squares2
        end
    end.

(** ** Game session *)

(** [MODES = { PVP: 'pvp', AI: 'ai' }] *)
Inductive Mode : Type := PVP | AI.

(** The non-null values of the [winner] state: ['X'], ['O'] or ['draw']. *)
Inductive Result : Type :=
| Won (p : Player)
| Draw.

(** The game state of the [App] component (theme left out). *)
Record State : Type := mkState {
  mode : Mode;
  board : list cell;
  xIsNext : bool;
  winner : option Result
}.

(** [useState] initial values. *)
Definition initial : State :=
  {| mode := PVP; board := EMPTY_BOARD; xIsNext := true; winner := None |}.

Definition currentPlayer (st : State) : Player :=
  if xIsNext st then X else O.

(** [Boolean(winner)] *)
Definition gameOver (st : State) : bool :=
  match winner st with
  | Some _ => true
  | None => false
  end.

Definition Mode_eqb (m n : Mode) : bool :=
  match m, n with
  | PVP, PVP | AI, AI => true
  | _, _ => false
  end.

(** [board.every((s) => s !== null)] *)
Definition boardFull (squares : list cell) : bool :=
  forallb (fun s => negb (cell_eqb s None)) squares.

(** The effect that depends on [board]: it sets [winner] or leaves it. *)
Definition winnerEffect (st : State) : State :=
  match calculateWinner (board st) with
  | Some w =>
      {| mode := mode st; board := board st; xIsNext := xIsNext st;
         winner := Some (Won w) |}
  | None =>
      if boardFull (board st)
      then {| mode := mode st; board := board st; xIsNext := xIsNext st;
              winner := Some Draw |}
      else st
  end.

(** [board[index] !== null] is also true outside the array, where the
    read gives [undefined]: the move is then ignored as well. *)
Definition handleMove (st : State) (index : nat) : State :=
  if gameOver st || negb (isNull (board st) index) then st
  else
    {| mode := mode st;
       board := <[index := Some (currentPlayer st)]> (board st);
       xIsNext := negb (xIsNext st);
       winner := winner st |}.

Definition resetGame (st : State) : State :=
  {| mode := mode st; board := EMPTY_BOARD; xIsNext := true; winner := None |}.

Definition handleModeChange (st : State) (newMode : Mode) : State :=
  resetGame
    {| mode := newMode; board := board st; xIsNext := xIsNext st;
       winner := winner st |}.

(** The transition [move(index)] of the session: the handler, then the
    [board] effect. *)
Definition move (st : State) (index : nat) : State :=
  winnerEffect (handleMove st index).

(** [const aiPlaysAs = PLAYERS.O] *)
Definition aiPlaysAs : Player := O.

(** The guard of the effect that arms the automated move. *)
Definition aiArmed (st : State) : bool :=
  Mode_eqb (mode st) AI && negb (gameOver st)
  && Player_eqb (currentPlayer st) aiPlaysAs.

(** The [disabled] attribute of square [index] as [Board] and [Square]
    render it. *)
Definition squareDisabled (st : State) (index : nat) : bool :=
  (gameOver st || (Mode_eqb (mode st) AI && Player_eqb (currentPlayer st) O))
  || negb (isNull (board st) index).

(** What the interface can deliver to the component. *)
Inductive Event : Type :=
| Click (index : nat)
| Restart
| ModeChange (newMode : Mode)
| AiTimeout.

(** A recorded call [findBestMove(squares, aiPlayer)]. *)
Record Call : Type := mkCall { callSquares : list cell; callPlayer : Player }.

(** One event, handled to completion: the handler, then the [board]
    effect.  The automated move works on the very array held in [board],
    so the state continues with the array as [findBestMove] leaves it.
    The result carries the calls to [findBestMove] made on the way. *)
Definition step (st : State) (e : Event) : option (State * list Call) :=
  match e with
  | Click index =>
      if squareDisabled st index then Some (st, [])
      else Some (move st index, [])
  | Restart => Some (winnerEffect (resetGame st), [])
  | ModeChange newMode => Some (winnerEffect (handleModeChange st newMode), [])
  | AiTimeout =>
      if aiArmed st then
        match findBestMove (board st) aiPlaysAs with
        | None => None
        | Some (choice, squares') =>
            let st1 := {| mode := mode st; board := squares';
                          xIsNext := xIsNext st; winner := winner st |} in
            let call := mkCall (board st) aiPlaysAs in
            match choice with
            | Some index => Some (move st1 index, [call])
            | None => Some (st1, [call])
            end
        end
      else Some (st, [])
  end.

(** The states the component can be in. *)
Inductive reachable : State -> Prop :=
| reach_initial : reachable initial
| reach_step st e st' calls :
    reachable st -> step st e = Some (st', calls) -> reachable st'.

(** ** Self-play *)

(** The automated player on both sides: the player to move takes the
    move [findBestMove] gives for its own mark, applied with
    [handleMove] and followed by the [board] effect, until the game is
    over. *)
Fixpoint selfPlay (rounds : nat) (st : State) : option State :=
  if gameOver st then Some st
  else
    match rounds with
    | 0%nat => None
    | S rounds' =>
        match findBestMove (board st) (currentPlayer st) with
        | Some (Some index, squares') =>
            selfPlay rounds'
              (move {| mode := mode st; board := squares';
                       xIsNext := xIsNext st; winner := winner st |} index)
        | _ => None
        end
    end.

(** ** Vocabulary of the statements *)

(** A board of the game: nine squares. *)
Definition wellFormed (squares : list cell) : Prop := length squares = 9%nat.

(** A depth on which the arithmetic of [minimax] is exact in JavaScript
    numbers: [depth], [10 - depth] and [-10 + depth] are integers
    within [-2^53, 2^53]. *)
Definition exactDepth (depth : Z) : Prop :=
  - (2 ^ 53 - 10) <= depth <= 2 ^ 53 - 10.

(** Square [i] is null and writing [mark] there makes [calculateWinner]
    return [mark]. *)
Definition winsAt (squares : list cell) (mark : Player) (i : nat) : bool :=
  isNull squares i
  && cell_eqb (calculateWinner (<[i := Some mark]> squares)) (Some mark).

(** Some square gives [mark] an immediate win. *)
Definition hasImmediate (squares : list cell) (mark : Player) : bool :=
  existsb (winsAt squares mark) (seq 0 (length squares)).

(** [minimax(boardWithMove, 0, false, aiPlayer)] returns [z], for the
    move at square [i]. *)
Definition moveValue (squares : list cell) (aiPlayer : Player) (i : nat)
    (z : Z) : Prop :=
  minimax (<[i := Some aiPlayer]> squares) 0 false aiPlayer
  = Some (Num z, <[i := Some aiPlayer]> squares).

(** The value is an integer, not one of the infinities. *)
Definition isNum (r : num) : Prop := exists z, r = Num z.

(** [pick] keeps [best] a usable accumulator: folding a number into it
    gives a number. *)
Definition absorbs (pick : num -> num -> num) (best : num) : Prop :=
  forall z, isNum (pick best (Num z)).

(** [i] is the lowest square that gives [mark] an immediate win. *)
Definition lowestWin (squares : list cell) (mark : Player) (i : nat) : Prop :=
  winsAt squares mark i = true
  /\ forall j, winsAt squares mark j = true -> (i <= j)%nat.

(** [i] is the lowest available move among those of greatest value. *)
Definition lowestBest (squares : list cell) (aiPlayer : Player) (i : nat)
    : Prop :=
  squares !! i = Some None
  /\ exists z,
       moveValue squares aiPlayer i z
       /\ forall j w,
            squares !! j = Some None -> moveValue squares aiPlayer j w ->
            w <= z /\ ((j < i)%nat -> w < z).

(** Which tier of [findBestMove] produced move [i]. *)
Definition selectedBy (squares : list cell) (aiPlayer : Player) (i : nat)
    : Prop :=
  lowestWin squares aiPlayer i
  \/ (hasImmediate squares aiPlayer = false
      /\ lowestWin squares (opponentOf aiPlayer) i)
  \/ (hasImmediate squares aiPlayer = false
      /\ hasImmediate squares (opponentOf aiPlayer) = false
      /\ lowestBest squares aiPlayer i).

(** The outcome as the board alone determines it. *)
Definition outcomeOf (squares : list cell) : option Result :=
  match calculateWinner squares with
  | Some w => Some (Won w)
  | None => if boardFull squares then Some Draw else None
  end.

(** The guard of [handleMove] lets the move through. *)
Definition accepts (st : State) (index : nat) : bool :=
  negb (gameOver st) && isNull (board st) index.

(** The marks written by a sequence of moves, rejected ones skipped. *)
Fixpoint marksPlaced (st : State) (indices : list nat) : list Player :=
  match indices with
  | [] => []
  | index :: rest =>
      if accepts st index
      then currentPlayer st :: marksPlaced (move st index) rest
      else marksPlaced (move st index) rest
  end.

(** The list starts with [p] and each mark is followed by the other. *)
Fixpoint alternating (p : Player) (l : list Player) : Prop :=
  match l with
  | [] => True
  | q :: rest => q = p /\ alternating (opponentOf p) rest
  end.

(** What holds of every reachable state: nine squares, a [winner] that
    agrees with the board, and an X on the board whenever O is to move. *)
Definition coherent (st : State) : Prop :=
  wellFormed (board st)
  /\ winner st = outcomeOf (board st)
  /\ (xIsNext st = false -> exists i, board st !! i = Some (Some X)).

(** ** Presentation state *)

(** The text of a mark, as a template literal prints it. *)
Definition playerText (p : Player) : string :=
  match p with
  | X => "X"%string
  | O => "O"%string
  end.

(** The memoised [statusMessage], a function of [winner],
    [currentPlayer] and [mode]. *)
Definition statusMessage (st : State) : string :=
  match winner st with
  | Some Draw => "It's a draw!"%string
  | Some (Won X) => "Player X wins!"%string
  | Some (Won O) =>
      if Mode_eqb (mode st) AI then "AI (O) wins!"%string
      else "Player O wins!"%string
  | None =>
      if Mode_eqb (mode st) AI
      then String.append "Your turn: "%string
             (if Player_eqb (currentPlayer st) X then "You (X)"%string
              else "AI (O)"%string)
      else String.append "Next player: "%string (playerText (currentPlayer st))
  end.

(** The updater of [toggleTheme]. *)
Definition toggleTheme (prev : string) : string :=
  if String.eqb prev "light"%string then "dark"%string else "light"%string.

(** The theme chosen on mount: [stored] is what [localStorage] holds
    under ['theme'] ([None] for [null]), [matches] what the media query
    for a dark colour scheme gives ([None] when [window.matchMedia] is
    missing).  The empty string is falsy, like [null]. *)
Definition initialTheme (stored : option string) (matches : option bool)
    : string :=
  let system :=
    match matches with
    | Some true => "dark"%string
    | _ => "light"%string
    end in
  match stored with
  | Some s => if String.eqb s EmptyString then system else s
  | None => system
  end.

(** ** Vocabulary of the further statements *)

(** The three squares of line [l] all hold the mark [p]. *)
Definition lineHeld (squares : list cell) (p : Player)
    (l : nat * nat * nat) : bool :=
  let '(a, b, c) := l in
  cell_eqb (sq squares a) (Some p)
  && cell_eqb (sq squares b) (Some p)
  && cell_eqb (sq squares c) (Some p).

(** How many squares hold [c]. *)
Definition countCell (c : cell) (squares : list cell) : nat :=
  length (List.filter (cell_eqb c) squares).

(** The search without mutation, as the design notes describe it: each
    nested call receives a board value of its own with the move written,
    and nothing is restored.  [fuel] bounds the depth as in
    [minimax_fuel]; the statements use it with more fuel than null
    squares, where the bound is not reached. *)
Fixpoint snapshotMinimax (fuel : nat) (squares : list cell) (depth : Z)
    (isMax : bool) (aiPlayer : Player) : num :=
  match fuel with
  | 0%nat => Num 0
  | S fuel' =>
      let score := evaluate squares aiPlayer in
      if (score =? 10) || (score =? -10)
      then Num (score - depth * Z.sgn score)
      else if (length (getAvailableMoves squares) =? 0)%nat
      then Num 0
      else if isMax then
        fold_left
          (fun best move =>
             num_max best
               (snapshotMinimax fuel' (<[move := Some aiPlayer]> squares)
                  (depth + 1) false aiPlayer))
          (getAvailableMoves squares) NegInf
      else
        fold_left
          (fun best move =>
             num_min best
               (snapshotMinimax fuel'
                  (<[move := Some (opponentOf aiPlayer)]> squares)
                  (depth + 1) true aiPlayer))
          (getAvailableMoves squares) PosInf
  end.

(** [-a] *)
Definition num_opp (a : num) : num :=
  match a with
  | NegInf => PosInf
  | Num z => Num (- z)
  | PosInf => NegInf
  end.

(** The value is an integer between [lo] and [hi]. *)
Definition inRange (lo hi : Z) (r : num) : Prop :=
  exists z, r = Num z /\ lo <= z <= hi.

(** The move at square [i] has a value that no available move exceeds. *)
Definition bestValue (squares : list cell) (aiPlayer : Player) (i : nat)
    : Prop :=
  exists z,
    moveValue squares aiPlayer i z
    /\ forall j w,
         squares !! j = Some None -> moveValue squares aiPlayer j w -> w <= z.

(** The state after [handleModeChange(MODES.AI)] or a restart in AI
    mode. *)
Definition aiStart : State :=
  {| mode := AI; board := EMPTY_BOARD; xIsNext := true; winner := None |}.

(** Whether X has won. *)
Definition xHasWon (st : State) : bool :=
  match winner st with
  | Some (Won X) => true
  | _ => false
  end.

(** Explores every state that clicks and automated moves can reach from
    [st], to depth [fuel]: true when X has won in none of them and the
    exploration ended within [fuel]. *)
Fixpoint aiSafe (fuel : nat) (st : State) : bool :=
  match fuel with
  | 0%nat => false
  | S fuel' =>
      if xHasWon st then false
      else if forallb
                (fun index =>
                   if squareDisabled st index then true
                   else aiSafe fuel' (move st index))
                (seq 0 9)
      then
        if aiArmed st then
          match step st AiTimeout with
          | Some (st', _) => aiSafe fuel' st'
          | None => false
          end
        else true
      else false
  end.

(** Every held line belongs to the player who moved last. *)
Definition linesOfLastMover (st : State) : Prop :=
  forall l q, In l lines -> lineHeld (board st) q l = true ->
              q = opponentOf (currentPlayer st).

(** X has as many marks as O, and one more when O is to move. *)
Definition balanced (st : State) : Prop :=
  countCell (Some X) (board st)
  = (countCell (Some O) (board st) + (if xIsNext st then 0 else 1))%nat.

(** * Properties *)

(** ** Squares and available moves *)

Section Squares.
Implicit Types (squares : list cell) (i j : nat) (mark : Player).

Lemma Player_eqb_eq (p q : Player) : Player_eqb p q = true <-> p = q.
Proof. destruct p, q; simpl; split; congruence. Qed.

Lemma cell_eqb_eq (c d : cell) : cell_eqb c d = true <-> c = d.
Proof.
  destruct c as [p|], d as [q|]; simpl; try (split; congruence).
  rewrite Player_eqb_eq. split; congruence.
Qed.

Lemma opponentOf_involutive (p : Player) : opponentOf (opponentOf p) = p.
Proof. now destruct p. Qed.

Lemma isNull_true squares i :
  isNull squares i = true <-> squares !! i = Some None.
Proof.
  unfold isNull. destruct (squares !! i) as [[p|]|]; split; congruence.
Qed.

Lemma getAvailableMoves_In squares i :
  In i (getAvailableMoves squares) <-> squares !! i = Some None.
Proof.
  unfold getAvailableMoves. rewrite filter_In, isNull_true, in_seq.
  split; [tauto|]. intros H. split; [|exact H].
  apply lookup_lt_Some in H. lia.
Qed.

Lemma getAvailableMoves_lt squares i :
  In i (getAvailableMoves squares) -> (i < length squares)%nat.
Proof. rewrite getAvailableMoves_In. apply lookup_lt_Some. Qed.

Lemma getAvailableMoves_NoDup squares :
  List.NoDup (getAvailableMoves squares).
Proof. unfold getAvailableMoves. apply List.NoDup_filter, seq_NoDup. Qed.

Lemma getAvailableMoves_nil squares :
  getAvailableMoves squares = [] <-> (forall i, squares !! i <> Some None).
Proof.
  split.
  - intros E i H. apply getAvailableMoves_In in H. rewrite E in H. destruct H.
  - intros H. destruct (getAvailableMoves squares) as [|i l] eqn:E; [easy|].
    exfalso. apply (H i), getAvailableMoves_In. rewrite E. now left.
Qed.

(** The moves come in ascending order: in any split of the list, what
    stands before an element is smaller. *)
Lemma filter_seq_split (f : nat -> bool) len start pre i post :
  List.filter f (seq start len) = pre ++ i :: post ->
  forall j, In j pre -> (j < i)%nat.
Proof.
  revert start pre. induction len as [|len IH]; intros start pre E j Hj.
  - destruct pre; discriminate.
  - simpl in E. destruct (f start).
    + destruct pre as [|p pre]; [destruct Hj|].
      injection E as -> E. destruct Hj as [<-|Hj].
      * assert (Hi : In i (List.filter f (seq (S p) len))).
        { rewrite E. apply in_or_app. right. now left. }
        apply filter_In in Hi. destruct Hi as [Hi _].
        apply in_seq in Hi. lia.
      * exact (IH _ _ E j Hj).
    + exact (IH _ _ E j Hj).
Qed.

Lemma getAvailableMoves_split squares pre i post :
  getAvailableMoves squares = pre ++ i :: post ->
  forall j, In j pre -> (j < i)%nat.
Proof. apply filter_seq_split. Qed.

(** Writing a mark on a null square and writing null back restores the
    array. *)
Lemma insert_restore squares i mark :
  squares !! i = Some None ->
  <[i := None]> (<[i := Some mark]> squares) = squares.
Proof.
  intros H. rewrite list_insert_insert_eq. now apply list_insert_id.
Qed.

Lemma getAvailableMoves_insert_In squares i mark j :
  In j (getAvailableMoves (<[i := Some mark]> squares)) ->
  In j (getAvailableMoves squares) /\ j <> i.
Proof.
  rewrite !getAvailableMoves_In. intros H.
  destruct (Nat.eq_dec i j) as [->|Hne].
  - exfalso. pose proof (lookup_lt_Some _ _ _ H) as Hlt.
    rewrite length_insert in Hlt.
    rewrite list_lookup_insert_eq in H by exact Hlt. discriminate.
  - rewrite list_lookup_insert_ne in H by exact Hne. split; congruence.
Qed.

(** Each mark placed on a null square leaves one available move less. *)
Lemma getAvailableMoves_insert_length squares i mark :
  squares !! i = Some None ->
  (length (getAvailableMoves (<[i := Some mark]> squares))
   < length (getAvailableMoves squares))%nat.
Proof.
  intros H.
  assert (Hle : (length (i :: getAvailableMoves (<[i := Some mark]> squares))
                 <= length (getAvailableMoves squares))%nat).
  { apply List.NoDup_incl_length.
    - apply List.NoDup_cons; [|apply getAvailableMoves_NoDup].
      intros Hin. apply getAvailableMoves_insert_In in Hin. now destruct Hin.
    - intros j [<-|Hj].
      + now apply getAvailableMoves_In.
      + now apply getAvailableMoves_insert_In in Hj. }
  simpl in Hle. lia.
Qed.

Lemma getAvailableMoves_length_le squares :
  (length (getAvailableMoves squares) <= length squares)%nat.
Proof.
  unfold getAvailableMoves.
  etransitivity; [apply List.filter_length_le|]. now rewrite length_seq.
Qed.

End Squares.

(** ** The search restores the array and returns a number *)

Section Search.
Implicit Types (squares : list cell) (moves : list nat) (best : num).

Lemma num_max_absorbs best : best <> PosInf -> absorbs num_max best.
Proof. intros H z. destruct best; simpl; unfold isNum; eauto. easy. Qed.

Lemma num_min_absorbs best : best <> NegInf -> absorbs num_min best.
Proof. intros H z. destruct best; simpl; unfold isNum; eauto. easy. Qed.

Lemma searchLoop_restores rec mark pick moves :
  forall best squares,
    (forall i, In i moves -> squares !! i = Some None) ->
    (forall i, In i moves ->
       exists z, rec (<[i := Some mark]> squares)
                 = Some (Num z, <[i := Some mark]> squares)) ->
    absorbs pick best ->
    (forall z, absorbs pick (Num z)) ->
    exists r, searchLoop rec mark pick moves best squares = Some (r, squares)
              /\ (moves <> [] -> isNum r).
Proof.
  induction moves as [|move rest IH]; intros best squares Hnull Hrec Hbest Hpick.
  - simpl. eexists. split; [reflexivity|]. intros H. now destruct H.
  - simpl. destruct (Hrec move (or_introl eq_refl)) as [z ->].
    rewrite insert_restore by (apply Hnull; now left).
    destruct (Hbest z) as [b Hb]. rewrite Hb.
    destruct (IH (Num b) squares) as [r [E Hr]].
    + intros i Hi. apply Hnull. now right.
    + intros i Hi. apply Hrec. now right.
    + apply Hpick.
    + apply Hpick.
    + exists r. split; [exact E|]. intros _.
      destruct rest as [|m rest'].
      * simpl in E. injection E as <-. now exists b.
      * apply Hr. discriminate.
Qed.

Lemma searchLoop_mono (rec rec' : list cell -> option (num * list cell))
    mark pick moves :
  (forall s r, rec s = Some r -> rec' s = Some r) ->
  forall best squares r,
    searchLoop rec mark pick moves best squares = Some r ->
    searchLoop rec' mark pick moves best squares = Some r.
Proof.
  intros Hsub. induction moves as [|move rest IH]; intros best squares r; simpl.
  - easy.
  - destruct (rec (<[move := Some mark]> squares)) as [[v s']|] eqn:E;
      [|discriminate].
    rewrite (Hsub _ _ E). apply IH.
Qed.

(** More fuel does not change a result. *)
Lemma minimax_fuel_S fuel :
  forall squares depth isMax aiPlayer r,
    minimax_fuel fuel squares depth isMax aiPlayer = Some r ->
    minimax_fuel (S fuel) squares depth isMax aiPlayer = Some r.
Proof.
  induction fuel as [|fuel IH]; intros squares depth isMax aiPlayer r.
  - discriminate.
  - intros H. cbn [minimax_fuel] in H |- *.
    destruct ((evaluate squares aiPlayer =? 10)
              || (evaluate squares aiPlayer =? -10)); [exact H|].
    destruct (length (getAvailableMoves squares) =? 0)%nat; [exact H|].
    destruct isMax;
      (eapply searchLoop_mono; [|exact H]); intros s r'; apply IH.
Qed.

Lemma minimax_fuel_le fuel fuel' squares depth isMax aiPlayer r :
  (fuel <= fuel')%nat ->
  minimax_fuel fuel squares depth isMax aiPlayer = Some r ->
  minimax_fuel fuel' squares depth isMax aiPlayer = Some r.
Proof.
  induction 1 as [|fuel' _ IH]; [easy|].
  intros H. now apply minimax_fuel_S, IH.
Qed.

(** With more fuel than available moves the search returns: a number,
    and the array as it was passed in. *)
Lemma minimax_fuel_enough fuel :
  forall squares depth isMax aiPlayer,
    (length (getAvailableMoves squares) < fuel)%nat ->
    exists z, minimax_fuel fuel squares depth isMax aiPlayer
              = Some (Num z, squares).
Proof.
  induction fuel as [|fuel IH]; intros squares depth isMax aiPlayer Hlt.
  - lia.
  - cbn [minimax_fuel].
    destruct ((evaluate squares aiPlayer =? 10)
              || (evaluate squares aiPlayer =? -10)); [eauto|].
    destruct (length (getAvailableMoves squares) =? 0)%nat eqn:E0; [eauto|].
    apply Nat.eqb_neq in E0.
    assert (Hne : getAvailableMoves squares <> []).
    { intros E. rewrite E in E0. now apply E0. }
    assert (Hnull : forall i, In i (getAvailableMoves squares) ->
                              squares !! i = Some None).
    { intros i. apply getAvailableMoves_In. }
    assert (Hrec : forall mark m i, In i (getAvailableMoves squares) ->
              exists z, minimax_fuel fuel (<[i := Some mark]> squares)
                          (depth + 1) m aiPlayer
                        = Some (Num z, <[i := Some mark]> squares)).
    { intros mark m i Hi. apply IH.
      pose proof (getAvailableMoves_insert_length squares i mark (Hnull i Hi)).
      lia. }
    destruct isMax.
    + destruct (searchLoop_restores
                  (fun s => minimax_fuel fuel s (depth + 1) false aiPlayer)
                  aiPlayer num_max (getAvailableMoves squares) NegInf squares
                  Hnull (Hrec aiPlayer false)) as [r [E Hr]].
      * now apply num_max_absorbs.
      * intros z. now apply num_max_absorbs.
      * destruct (Hr Hne) as [z ->]. eauto.
    + destruct (searchLoop_restores
                  (fun s => minimax_fuel fuel s (depth + 1) true aiPlayer)
                  (opponentOf aiPlayer) num_min
                  (getAvailableMoves squares) PosInf squares
                  Hnull (Hrec (opponentOf aiPlayer) true)) as [r [E Hr]].
      * now apply num_min_absorbs.
      * intros z. now apply num_min_absorbs.
      * destruct (Hr Hne) as [z ->]. eauto.
Qed.

Lemma minimax_returns squares depth isMax aiPlayer :
  exists z, minimax squares depth isMax aiPlayer = Some (Num z, squares).
Proof.
  apply minimax_fuel_enough.
  pose proof (getAvailableMoves_length_le squares). lia.
Qed.

(** The bound chosen in [minimax] is immaterial: any sufficient fuel
    gives the same result. *)
Lemma minimax_fuel_minimax fuel squares depth isMax aiPlayer :
  (length (getAvailableMoves squares) < fuel)%nat ->
  minimax_fuel fuel squares depth isMax aiPlayer
  = minimax squares depth isMax aiPlayer.
Proof.
  intros Hlt.
  destruct (minimax_fuel_enough fuel squares depth isMax aiPlayer Hlt)
    as [z Hz].
  destruct (minimax_returns squares depth isMax aiPlayer) as [z' Hz'].
  rewrite Hz, Hz'. unfold minimax in Hz'.
  destruct (Nat.le_ge_cases fuel (S (length squares))) as [Hle|Hle].
  - rewrite (minimax_fuel_le _ _ _ _ _ _ _ Hle Hz) in Hz'. exact Hz'.
  - rewrite (minimax_fuel_le _ _ _ _ _ _ _ Hle Hz') in Hz. now rewrite Hz.
Qed.

End Search.

(** ** The three tiers of the move selector *)

Section Selector.
Implicit Types (squares : list cell) (moves : list nat) (mark : Player).

Lemma find_split {A : Type} (f : A -> bool) (l : list A) (x : A) :
  List.find f l = Some x ->
  exists pre post,
    l = pre ++ x :: post /\ f x = true /\ forall y, In y pre -> f y = false.
Proof.
  induction l as [|a l IH]; simpl; [discriminate|].
  destruct (f a) eqn:Fa.
  - intros [= ->]. exists [], l. repeat split; [exact Fa|]. intros y [].
  - intros H. destruct (IH H) as (pre & post & -> & Fx & Hpre).
    exists (a :: pre), post. repeat split; [exact Fx|].
    intros y [<-|Hy]; [exact Fa|now apply Hpre].
Qed.

Lemma tryLoop_find mark moves squares :
  (forall i, In i moves -> squares !! i = Some None) ->
  tryLoop mark moves squares
  = (List.find
       (fun i => cell_eqb (calculateWinner (<[i := Some mark]> squares))
                          (Some mark)) moves,
     squares).
Proof.
  induction moves as [|move rest IH]; intros Hnull; simpl; [reflexivity|].
  rewrite insert_restore by (apply Hnull; now left).
  destruct (cell_eqb _ _); [reflexivity|].
  apply IH. intros i Hi. apply Hnull. now right.
Qed.

Lemma winsAt_true squares mark i :
  winsAt squares mark i = true <->
  In i (getAvailableMoves squares)
  /\ cell_eqb (calculateWinner (<[i := Some mark]> squares)) (Some mark) = true.
Proof.
  unfold winsAt. now rewrite andb_true_iff, getAvailableMoves_In, isNull_true.
Qed.

Lemma hasImmediate_false squares mark :
  hasImmediate squares mark = false <->
  (forall i, winsAt squares mark i = false).
Proof.
  unfold hasImmediate. split.
  - intros H i. destruct (winsAt squares mark i) eqn:W; [|reflexivity].
    rewrite <- H. symmetry. apply existsb_exists. exists i. split; [|exact W].
    apply winsAt_true in W. destruct W as [W _].
    unfold getAvailableMoves in W. now apply filter_In in W.
  - intros H. destruct (existsb _ _) eqn:E; [|reflexivity].
    apply existsb_exists in E. destruct E as (i & _ & W). now rewrite H in W.
Qed.

(** The first loop that finds a move returns the lowest such square and
    leaves the array as it was. *)
Lemma tryLoop_Some squares mark i squares' :
  tryLoop mark (getAvailableMoves squares) squares = (Some i, squares') ->
  squares' = squares
  /\ winsAt squares mark i = true
  /\ forall j, winsAt squares mark j = true -> (i <= j)%nat.
Proof.
  rewrite tryLoop_find by (intros k; apply getAvailableMoves_In).
  intros [= F <-]. split; [reflexivity|].
  apply find_split in F. destruct F as (pre & post & E & Fi & Hpre).
  assert (Hi : In i (getAvailableMoves squares)).
  { rewrite E. apply in_or_app. right. now left. }
  split; [apply winsAt_true; now split|].
  intros j Hj. apply winsAt_true in Hj. destruct Hj as [Hj Fj].
  rewrite E in Hj. apply in_app_or in Hj. destruct Hj as [Hj|[<-|Hj]].
  - rewrite (Hpre j Hj) in Fj. discriminate.
  - lia.
  - apply in_split in Hj. destruct Hj as (p1 & p2 & ->).
    enough (i < j)%nat by lia.
    apply (getAvailableMoves_split squares (pre ++ i :: p1) j p2).
    + rewrite E. now rewrite <- app_assoc.
    + apply in_or_app. right. now left.
Qed.

Lemma tryLoop_None squares mark squares' :
  tryLoop mark (getAvailableMoves squares) squares = (None, squares') ->
  squares' = squares /\ hasImmediate squares mark = false.
Proof.
  rewrite tryLoop_find by (intros k; apply getAvailableMoves_In).
  intros [= F <-]. split; [reflexivity|].
  apply hasImmediate_false. intros i.
  destruct (winsAt squares mark i) eqn:W; [|reflexivity].
  apply winsAt_true in W. destruct W as [Hi W].
  now rewrite (find_none _ _ F i Hi) in W.
Qed.

Lemma moveValue_fun squares aiPlayer i z z' :
  moveValue squares aiPlayer i z -> moveValue squares aiPlayer i z' -> z = z'.
Proof. unfold moveValue. intros -> [= ->]. reflexivity. Qed.

Lemma num_gtb_Num_false z w : num_gtb (Num w) (Num z) = false -> w <= z.
Proof. simpl. destruct (Z.gtb_spec w z); [discriminate|lia]. Qed.

Lemma num_gtb_Num_true z w : num_gtb (Num w) (Num z) = true -> z < w.
Proof. simpl. destruct (Z.gtb_spec w z); [lia|discriminate]. Qed.

Lemma num_gtb_trans z w best :
  num_gtb (Num z) best = true -> z < w -> num_gtb (Num w) best = true.
Proof.
  destruct best as [|b|]; simpl; try easy.
  destruct (Z.gtb_spec z b); [|discriminate]. intros _ Hzw.
  destruct (Z.gtb_spec w b); [reflexivity|lia].
Qed.

Lemma num_gtb_between z w best :
  num_gtb (Num z) best = false -> num_gtb (Num w) best = true -> z < w.
Proof.
  destruct best as [|b|]; simpl; try easy.
  destruct (Z.gtb_spec z b); [discriminate|].
  destruct (Z.gtb_spec w b); [lia|discriminate].
Qed.

(** The full minimax loop: either no move beats [bestVal] and
    [bestMove] stands, or the result is the first move of greatest value,
    which beats [bestVal]. *)
Lemma bestLoop_spec aiPlayer moves :
  forall bestVal bestMove squares,
    (forall i, In i moves -> squares !! i = Some None) ->
    exists r,
      bestLoop aiPlayer moves bestVal bestMove squares = Some (r, squares)
      /\ ((r = bestMove
           /\ forall j w, In j moves -> moveValue squares aiPlayer j w ->
                          num_gtb (Num w) bestVal = false)
          \/ exists pre i post z,
               moves = pre ++ i :: post
               /\ r = Some i
               /\ moveValue squares aiPlayer i z
               /\ num_gtb (Num z) bestVal = true
               /\ (forall j w, In j pre -> moveValue squares aiPlayer j w ->
                               w < z)
               /\ (forall j w, In j post -> moveValue squares aiPlayer j w ->
                               w <= z)).
Proof.
  induction moves as [|m rest IH]; intros bestVal bestMove squares Hnull.
  - exists bestMove. split; [reflexivity|]. left. split; [reflexivity|].
    intros j w [].
  - simpl.
    destruct (minimax_returns (<[m := Some aiPlayer]> squares) 0 false aiPlayer)
      as [v Hv].
    rewrite Hv. rewrite insert_restore by (apply Hnull; now left).
    assert (Hrest : forall i, In i rest -> squares !! i = Some None).
    { intros i Hi. apply Hnull. now right. }
    destruct (num_gtb (Num v) bestVal) eqn:G.
    + destruct (IH (Num v) (Some m) squares Hrest) as [r [E Hr]].
      exists r. split; [exact E|]. right.
      destruct Hr as [[-> Hall]|(pre & i & post & z & -> & -> & Hz & Hgt & Hpre & Hpost)].
      * exists [], m, rest, v. repeat split; try easy.
        intros j w Hj Hw. apply num_gtb_Num_false. eauto.
      * exists (m :: pre), i, post, z.
        apply num_gtb_Num_true in Hgt.
        repeat split; try easy.
        -- eapply num_gtb_trans; eauto.
        -- intros j w [<-|Hj] Hw; [|eauto].
           now rewrite (moveValue_fun _ _ _ _ _ Hw Hv).
    + destruct (IH bestVal bestMove squares Hrest) as [r [E Hr]].
      exists r. split; [exact E|].
      destruct Hr as [[-> Hall]|(pre & i & post & z & -> & -> & Hz & Hgt & Hpre & Hpost)].
      * left. split; [reflexivity|].
        intros j w [<-|Hj] Hw; [|eauto].
        now rewrite (moveValue_fun _ _ _ _ _ Hw Hv).
      * right. exists (m :: pre), i, post, z.
        repeat split; try easy.
        intros j w [<-|Hj] Hw; [|eauto].
        rewrite (moveValue_fun _ _ _ _ _ Hw Hv).
        eapply num_gtb_between; eauto.
Qed.

End Selector.

Section FindBestMove.
Implicit Types (squares : list cell) (aiPlayer : Player).

Lemma bestLoop_top squares aiPlayer :
  getAvailableMoves squares <> [] ->
  exists i,
    bestLoop aiPlayer (getAvailableMoves squares) NegInf
      (getAvailableMoves squares !! 0%nat) squares
    = Some (Some i, squares)
    /\ lowestBest squares aiPlayer i.
Proof.
  intros Hne.
  destruct (bestLoop_spec aiPlayer (getAvailableMoves squares) NegInf
              (getAvailableMoves squares !! 0%nat) squares)
    as [r [E Hr]]; [intros i; apply getAvailableMoves_In|].
  destruct Hr as [[_ Hall]|(pre & i & post & z & Esplit & -> & Hz & _ & Hpre & Hpost)].
  - exfalso. destruct (getAvailableMoves squares) as [|m rest] eqn:EA; [easy|].
    destruct (minimax_returns (<[m := Some aiPlayer]> squares) 0 false aiPlayer)
      as [v Hv].
    specialize (Hall m v (or_introl eq_refl) Hv). discriminate.
  - exists i. split; [exact E|]. split.
    + apply getAvailableMoves_In. rewrite Esplit.
      apply in_or_app. right. now left.
    + exists z. split; [exact Hz|]. intros j w Hj Hw.
      apply getAvailableMoves_In in Hj. rewrite Esplit in Hj.
      apply in_app_or in Hj. destruct Hj as [Hj|[<-|Hj]].
      * specialize (Hpre j w Hj Hw). lia.
      * rewrite (moveValue_fun _ _ _ _ _ Hw Hz). lia.
      * specialize (Hpost j w Hj Hw). split; [exact Hpost|].
        apply in_split in Hj. destruct Hj as (p1 & p2 & ->).
        assert (i < j)%nat; [|lia].
        apply (getAvailableMoves_split squares (pre ++ i :: p1) j p2).
        -- rewrite Esplit. now rewrite <- app_assoc.
        -- apply in_or_app. right. now left.
Qed.

(** [findBestMove] always returns, with the array as it was passed in:
    [null] when no move is available, else a move of one of the tiers. *)
Lemma findBestMove_cases squares aiPlayer :
  (getAvailableMoves squares = []
   /\ findBestMove squares aiPlayer = Some (None, squares))
  \/ (getAvailableMoves squares <> []
      /\ exists i,
           findBestMove squares aiPlayer = Some (Some i, squares)
           /\ selectedBy squares aiPlayer i).
Proof.
  unfold findBestMove.
  destruct (length (getAvailableMoves squares) =? 0)%nat eqn:E0.
  - left. apply Nat.eqb_eq in E0. split; [|reflexivity].
    now destruct (getAvailableMoves squares).
  - right. apply Nat.eqb_neq in E0.
    assert (Hne : getAvailableMoves squares <> []).
    { intros E. rewrite E in E0. now apply E0. }
    split; [exact Hne|].
    destruct (tryLoop aiPlayer (getAvailableMoves squares) squares)
      as [[i|] s1] eqn:T1.
    + apply tryLoop_Some in T1. destruct T1 as (-> & W & L).
      exists i. split; [reflexivity|]. left. split; [exact W|exact L].
    + apply tryLoop_None in T1. destruct T1 as (-> & N1).
      destruct (tryLoop (opponentOf aiPlayer) (getAvailableMoves squares) squares)
        as [[i|] s2] eqn:T2.
      * apply tryLoop_Some in T2. destruct T2 as (-> & W & L).
        exists i. split; [reflexivity|]. right. left.
        split; [exact N1|]. split; [exact W|exact L].
      * apply tryLoop_None in T2. destruct T2 as (-> & N2).
        destruct (bestLoop_top squares aiPlayer Hne) as (i & E & B).
        exists i. split; [exact E|]. right. right.
        split; [exact N1|]. split; [exact N2|exact B].
Qed.

Lemma lowestWin_not_hasImmediate squares mark i :
  lowestWin squares mark i -> hasImmediate squares mark = false -> False.
Proof.
  intros [W _] H. rewrite (proj1 (hasImmediate_false _ _) H i) in W.
  discriminate.
Qed.

Lemma lowestBest_unique squares aiPlayer i j :
  lowestBest squares aiPlayer i -> lowestBest squares aiPlayer j -> i = j.
Proof.
  intros (Hi & z & Hz & Hmax) (Hj & w & Hw & Hmax').
  destruct (Hmax j w Hj Hw) as [Hle Hlt].
  destruct (Hmax' i z Hi Hz) as [Hle' Hlt'].
  destruct (Nat.lt_trichotomy i j) as [H|[H|H]]; [|exact H|].
  - specialize (Hlt' H). lia.
  - specialize (Hlt H). lia.
Qed.

End FindBestMove.

(** ** Session invariants *)

Section Session.
Implicit Types (st : State) (index : nat).

Lemma winnerEffect_outcome st :
  winnerEffect st
  = match outcomeOf (board st) with
    | Some r => {| mode := mode st; board := board st;
                   xIsNext := xIsNext st; winner := Some r |}
    | None => st
    end.
Proof.
  unfold winnerEffect, outcomeOf.
  destruct (calculateWinner (board st)); [reflexivity|].
  now destruct (boardFull (board st)).
Qed.

Lemma winnerEffect_board st : board (winnerEffect st) = board st.
Proof. rewrite winnerEffect_outcome. now destruct (outcomeOf (board st)). Qed.

Lemma winnerEffect_xIsNext st : xIsNext (winnerEffect st) = xIsNext st.
Proof. rewrite winnerEffect_outcome. now destruct (outcomeOf (board st)). Qed.

Lemma winnerEffect_mode st : mode (winnerEffect st) = mode st.
Proof. rewrite winnerEffect_outcome. now destruct (outcomeOf (board st)). Qed.

Lemma winnerEffect_winner st :
  winner st = None -> winner (winnerEffect st) = outcomeOf (board st).
Proof.
  intros H. rewrite winnerEffect_outcome.
  now destruct (outcomeOf (board st)).
Qed.

(** Once [winner] agrees with the board, running the effect again
    changes nothing. *)
Lemma winnerEffect_stable st :
  winner st = outcomeOf (board st) -> winnerEffect st = st.
Proof.
  intros H. rewrite winnerEffect_outcome. rewrite <- H.
  destruct st as [m b x [r|]]; reflexivity.
Qed.

Lemma handleMove_rejected st index :
  accepts st index = false -> handleMove st index = st.
Proof.
  unfold accepts, handleMove. intros H.
  destruct (gameOver st); [reflexivity|].
  simpl in H |- *. now rewrite H.
Qed.

Lemma handleMove_accepted st index :
  accepts st index = true ->
  handleMove st index
  = {| mode := mode st;
       board := <[index := Some (currentPlayer st)]> (board st);
       xIsNext := negb (xIsNext st);
       winner := winner st |}.
Proof.
  unfold accepts, handleMove. intros H.
  apply andb_true_iff in H. destruct H as [H1 H2].
  apply negb_true_iff in H1. now rewrite H1, H2.
Qed.

Lemma accepts_winner st index : accepts st index = true -> winner st = None.
Proof.
  unfold accepts, gameOver. destruct (winner st); [discriminate|reflexivity].
Qed.

Lemma accepts_null st index :
  accepts st index = true -> board st !! index = Some None.
Proof.
  unfold accepts. intros H. apply andb_true_iff in H.
  now apply isNull_true.
Qed.

Lemma move_board st index :
  accepts st index = true ->
  board (move st index) = <[index := Some (currentPlayer st)]> (board st).
Proof.
  intros H. unfold move. rewrite winnerEffect_board.
  now rewrite handleMove_accepted.
Qed.

Lemma move_currentPlayer st index :
  currentPlayer (move st index)
  = if accepts st index then opponentOf (currentPlayer st)
    else currentPlayer st.
Proof.
  unfold move, currentPlayer at 1. rewrite winnerEffect_xIsNext.
  destruct (accepts st index) eqn:A.
  - rewrite handleMove_accepted by exact A. simpl.
    unfold currentPlayer. now destruct (xIsNext st).
  - now rewrite handleMove_rejected.
Qed.

Lemma move_winner st index :
  accepts st index = true ->
  winner (move st index) = outcomeOf (board (move st index)).
Proof.
  intros H. unfold move at 1. rewrite winnerEffect_winner.
  - unfold move. now rewrite winnerEffect_board.
  - rewrite handleMove_accepted by exact H. simpl.
    now apply accepts_winner with index.
Qed.

Lemma marksPlaced_alternating indices :
  forall st, alternating (currentPlayer st) (marksPlaced st indices).
Proof.
  induction indices as [|index rest IH]; intros st; simpl; [exact I|].
  pose proof (move_currentPlayer st index) as Hcp.
  destruct (accepts st index).
  - simpl. split; [reflexivity|]. rewrite <- Hcp. apply IH.
  - rewrite <- Hcp. apply IH.
Qed.

Lemma coherent_initial : coherent initial.
Proof. repeat split. discriminate. Qed.

Lemma coherent_reset st : coherent (winnerEffect (resetGame st)).
Proof. repeat split. discriminate. Qed.

Lemma coherent_move st index :
  coherent st -> accepts st index = true -> coherent (move st index).
Proof.
  intros (Hwf & Hw & Hx) A. split; [|split].
  - unfold wellFormed. rewrite move_board by exact A.
    now rewrite length_insert.
  - now apply move_winner.
  - intros Hnext. rewrite move_board by exact A.
    pose proof (move_currentPlayer st index) as Hcp. rewrite A in Hcp.
    unfold currentPlayer at 1 in Hcp. rewrite Hnext in Hcp.
    exists index. rewrite <- (opponentOf_involutive (currentPlayer st)).
    rewrite <- Hcp. simpl.
    apply list_lookup_insert_eq.
    apply accepts_null in A. now apply lookup_lt_Some in A.
Qed.

Lemma squareDisabled_accepts st index :
  squareDisabled st index = false -> accepts st index = true.
Proof.
  unfold squareDisabled, accepts. intros H.
  apply orb_false_iff in H. destruct H as [H1 H2].
  apply orb_false_iff in H1. destruct H1 as [H1 _].
  rewrite H1. apply negb_false_iff in H2. now rewrite H2.
Qed.

Lemma selectedBy_null squares aiPlayer i :
  selectedBy squares aiPlayer i -> squares !! i = Some None.
Proof.
  intros [[W _]|[(_ & W & _)|(_ & _ & B & _)]]; [| |exact B];
    apply winsAt_true in W; now apply getAvailableMoves_In.
Qed.

Lemma state_eta st :
  {| mode := mode st; board := board st; xIsNext := xIsNext st;
     winner := winner st |} = st.
Proof. now destruct st. Qed.

(** What the armed automated move does: one call to [findBestMove] on
    the current board for O, and, unless the board is full, the move it
    returns applied to the unchanged board. *)
Lemma step_AiTimeout_armed st :
  aiArmed st = true ->
  (getAvailableMoves (board st) = []
   /\ step st AiTimeout = Some (st, [mkCall (board st) aiPlaysAs]))
  \/ exists i,
       selectedBy (board st) aiPlaysAs i
       /\ accepts st i = true
       /\ step st AiTimeout
          = Some (move st i, [mkCall (board st) aiPlaysAs]).
Proof.
  intros Harm. unfold step. rewrite Harm.
  destruct (findBestMove_cases (board st) aiPlaysAs)
    as [[Hnil ->]|(_ & i & -> & Hsel)].
  - left. split; [exact Hnil|]. now rewrite state_eta.
  - right. exists i. rewrite state_eta. repeat split; [exact Hsel|].
    unfold accepts. apply selectedBy_null, isNull_true in Hsel. rewrite Hsel.
    unfold aiArmed in Harm. apply andb_true_iff in Harm.
    destruct Harm as [Harm _]. apply andb_true_iff in Harm.
    destruct Harm as [_ Harm]. now rewrite Harm.
Qed.

Lemma step_coherent st e st' calls :
  coherent st -> step st e = Some (st', calls) -> coherent st'.
Proof.
  intros Hc. destruct e as [index| |newMode|]; simpl.
  - destruct (squareDisabled st index) eqn:D; intros [= <- <-]; [exact Hc|].
    now apply coherent_move, squareDisabled_accepts.
  - intros [= <- <-]. apply coherent_reset.
  - intros [= <- <-]. apply coherent_reset.
  - destruct (aiArmed st) eqn:Harm; [|now intros [= <- <-]].
    destruct (step_AiTimeout_armed st Harm) as [[_ E]|(i & _ & A & E)];
      simpl in E; rewrite Harm in E; rewrite E; intros [= <- <-];
      [exact Hc|now apply coherent_move].
Qed.

Lemma reachable_coherent st : reachable st -> coherent st.
Proof.
  induction 1 as [|st e st' calls _ IH E];
    [apply coherent_initial|exact (step_coherent _ _ _ _ IH E)].
Qed.

(** Every event is handled: the bound of the search is never reached. *)
Lemma step_total st e : exists r, step st e = Some r.
Proof.
  destruct e as [index| |newMode|]; simpl; eauto.
  - destruct (squareDisabled st index); eauto.
  - destruct (aiArmed st) eqn:Harm; [|eauto].
    destruct (step_AiTimeout_armed st Harm) as [[_ E]|(i & _ & _ & E)];
      simpl in E; rewrite Harm in E; rewrite E; eauto.
Qed.

End Session.

(** * The specification's statements *)

(** ** Move selector *)

(** C1.  On a well-formed board where some null square gives [M] an
    immediate win, [findBestMove] returns the lowest such square (and
    leaves the board as it was). *)
Theorem findBestMove_takes_win (squares : list cell) (M : Player) :
  wellFormed squares ->
  (exists k, winsAt squares M k = true) ->
  exists i,
    findBestMove squares M = Some (Some i, squares) /\ lowestWin squares M i.
Proof.
  intros _ [k Hk].
  destruct (findBestMove_cases squares M) as [[Hnil _]|(_ & i & E & Hsel)].
  - apply winsAt_true in Hk. rewrite Hnil in Hk. now destruct Hk.
  - exists i. split; [exact E|].
    destruct Hsel as [L|[(N & _)|(N & _)]]; [exact L| |];
      rewrite (proj1 (hasImmediate_false _ _) N k) in Hk; discriminate.
Qed.

(** The board [[A,A,_,B,B,_,_,_,_]] with A to play: square 2. *)
Lemma findBestMove_takes_win_witness :
  findBestMove [Some X; Some X; None; Some O; Some O; None; None; None; None] X
  = Some (Some 2%nat,
          [Some X; Some X; None; Some O; Some O; None; None; None; None])
  /\ lowestWin
       [Some X; Some X; None; Some O; Some O; None; None; None; None] X 2.
Proof.
  destruct (findBestMove_takes_win
              [Some X; Some X; None; Some O; Some O; None; None; None; None] X)
    as (i & E & L).
  - reflexivity.
  - exists 2%nat. reflexivity.
  - assert (Hi : i = 2%nat) by (vm_compute in E; congruence).
    rewrite Hi in E, L. split; [exact E|exact L].
Defined.

(** C2.  On a well-formed board where no null square gives [M] an
    immediate win and some null square gives the opponent one,
    [findBestMove] returns the lowest such square. *)
Theorem findBestMove_blocks (squares : list cell) (M : Player) :
  wellFormed squares ->
  hasImmediate squares M = false ->
  (exists k, winsAt squares (opponentOf M) k = true) ->
  exists i,
    findBestMove squares M = Some (Some i, squares)
    /\ lowestWin squares (opponentOf M) i.
Proof.
  intros _ Hno [k Hk].
  destruct (findBestMove_cases squares M) as [[Hnil _]|(_ & i & E & Hsel)].
  - apply winsAt_true in Hk. rewrite Hnil in Hk. now destruct Hk.
  - exists i. split; [exact E|].
    destruct Hsel as [L|[(_ & L)|(_ & N & _)]]; [|exact L|].
    + destruct (lowestWin_not_hasImmediate _ _ _ L Hno).
    + rewrite (proj1 (hasImmediate_false _ _) N k) in Hk. discriminate.
Qed.

(** The board [[B,B,_,_,A,_,_,_,_]] with A to play: square 2. *)
Lemma findBestMove_blocks_witness :
  findBestMove [Some O; Some O; None; None; Some X; None; None; None; None] X
  = Some (Some 2%nat,
          [Some O; Some O; None; None; Some X; None; None; None; None])
  /\ lowestWin
       [Some O; Some O; None; None; Some X; None; None; None; None] O 2.
Proof.
  destruct (findBestMove_blocks
              [Some O; Some O; None; None; Some X; None; None; None; None] X)
    as (i & E & L).
  - reflexivity.
  - reflexivity.
  - exists 2%nat. reflexivity.
  - assert (Hi : i = 2%nat) by (vm_compute in E; congruence).
    rewrite Hi in E, L. split; [exact E|exact L].
Defined.

(** C3.  The base cases of [minimax] on a well-formed board, for every
    depth on which the arithmetic is exact: a score of 10 or -10 is
    returned moved towards zero by [depth]
    ([score - depth * sign(score)], that is [10 - depth] for a win and
    [-10 + depth] for a loss), a value that lies within [-2^53, 2^53];
    otherwise a board without null square gives 0. *)
Theorem minimax_base_cases (squares : list cell) (depth : Z) (isMax : bool)
    (M : Player) :
  wellFormed squares ->
  exactDepth depth ->
  (evaluate squares M = 10 \/ evaluate squares M = -10 ->
   minimax squares depth isMax M
   = Some (Num (evaluate squares M - depth * Z.sgn (evaluate squares M)),
           squares)
   /\ - 2 ^ 53
      <= evaluate squares M - depth * Z.sgn (evaluate squares M)
      <= 2 ^ 53)
  /\ (evaluate squares M = 10 ->
      minimax squares depth isMax M = Some (Num (10 - depth), squares))
  /\ (evaluate squares M = -10 ->
      minimax squares depth isMax M = Some (Num (-10 + depth), squares))
  /\ (evaluate squares M <> 10 -> evaluate squares M <> -10 ->
      (forall i, squares !! i <> Some None) ->
      minimax squares depth isMax M = Some (Num 0, squares)).
Proof.
  intros _ Hd. unfold exactDepth in Hd. unfold minimax. cbn [minimax_fuel].
  split; [|split; [|split]].
  - intros [E|E]; rewrite E; (split; [reflexivity|]); simpl; lia.
  - intros E. rewrite E. simpl. do 3 f_equal. lia.
  - intros E. rewrite E. simpl. do 3 f_equal. lia.
  - intros H1 H2 Hfull.
    apply Z.eqb_neq in H1, H2. rewrite H1, H2. simpl.
    apply getAvailableMoves_nil in Hfull. now rewrite Hfull.
Qed.

(** A board won by X, searched for X at depth 3: 7. *)
Lemma minimax_base_cases_witness :
  minimax [Some X; Some X; Some X; Some O; Some O; None; None; None; None]
    3 true X
  = Some (Num (10 - 3),
          [Some X; Some X; Some X; Some O; Some O; None; None; None; None]).
Proof.
  apply (minimax_base_cases
           [Some X; Some X; Some X; Some O; Some O; None; None; None; None]
           3 true X).
  - reflexivity.
  - unfold exactDepth. lia.
  - reflexivity.
Defined.

(** C4.  On a well-formed board where neither an immediate win nor an
    immediate block is found, the move [findBestMove] returns is the
    lowest available move among those whose [minimax] value (board with
    the move, depth 0, opponent to play) is greatest: it returns [i]
    exactly when [i] is that move. *)
Theorem findBestMove_fallback (squares : list cell) (M : Player) :
  wellFormed squares ->
  hasImmediate squares M = false ->
  hasImmediate squares (opponentOf M) = false ->
  exists r,
    findBestMove squares M = Some (r, squares)
    /\ forall i, r = Some i <-> lowestBest squares M i.
Proof.
  intros _ N1 N2.
  destruct (findBestMove_cases squares M) as [[Hnil E]|(_ & i0 & E & Hsel)].
  - exists None. split; [exact E|]. intros i. split; [discriminate|].
    intros [Hi _]. apply getAvailableMoves_In in Hi.
    rewrite Hnil in Hi. now destruct Hi.
  - exists (Some i0). split; [exact E|].
    destruct Hsel as [L|[(_ & L)|(_ & _ & B)]].
    + destruct (lowestWin_not_hasImmediate _ _ _ L N1).
    + destruct (lowestWin_not_hasImmediate _ _ _ L N2).
    + intros i. split.
      * intros [= <-]. exact B.
      * intros B'. f_equal. exact (lowestBest_unique _ _ _ _ B B').
Qed.

(** A board with four null squares and nothing immediate for either
    side. *)
Lemma findBestMove_fallback_witness :
  exists r,
    findBestMove
      [Some X; Some O; Some X; None; Some O; None; None; Some X; None] X
    = Some (r, [Some X; Some O; Some X; None; Some O; None; None; Some X; None])
    /\ forall i,
         r = Some i <->
         lowestBest
           [Some X; Some O; Some X; None; Some O; None; None; Some X; None] X i.
Proof.
  apply findBestMove_fallback; reflexivity.
Defined.

(** C5.  On a well-formed board, [minimax] and [findBestMove] return
    with the array equal to the one passed in: every write made during
    the search has been undone. *)
Theorem search_restores_board (squares : list cell) (depth : Z)
    (isMax : bool) (M : Player) :
  wellFormed squares ->
  (exists v, minimax squares depth isMax M = Some (v, squares))
  /\ (exists r, findBestMove squares M = Some (r, squares)).
Proof.
  intros _. split.
  - destruct (minimax_returns squares depth isMax M) as [z E]. eauto.
  - destruct (findBestMove_cases squares M) as [[_ E]|(_ & i & E & _)]; eauto.
Qed.

Lemma search_restores_board_witness :
  (exists v,
     minimax [Some X; Some O; Some X; None; Some O; None; None; Some X; None]
       0 true X
     = Some (v, [Some X; Some O; Some X; None; Some O; None; None; Some X; None]))
  /\ (exists r,
        findBestMove
          [Some X; Some O; Some X; None; Some O; None; None; Some X; None] X
        = Some (r, [Some X; Some O; Some X; None; Some O; None; None; Some X;
                    None])).
Proof.
  apply search_restores_board. reflexivity.
Defined.

(** C6.  Self-play from the empty board with X to move ends, after nine
    moves chosen by [findBestMove], on a full board without winner: a
    draw. *)
Theorem selfPlay_draw :
  exists st,
    selfPlay 9 initial = Some st
    /\ calculateWinner (board st) = None
    /\ boardFull (board st) = true
    /\ winner st = Some Draw.
Proof.
  exists {| mode := PVP;
            board := [Some X; Some X; Some O; Some O; Some O; Some X;
                      Some X; Some O; Some X];
            xIsNext := false;
            winner := Some Draw |}.
  split; [vm_compute; reflexivity|].
  repeat split.
Qed.

(** C7.  On a well-formed board, [findBestMove] returns [null] exactly
    when no square is null, and a move it returns is a null square of
    the board. *)
Theorem findBestMove_null_iff_full (squares : list cell) (M : Player) :
  wellFormed squares ->
  exists r,
    findBestMove squares M = Some (r, squares)
    /\ (r = None <-> forall i, squares !! i <> Some None)
    /\ (forall i, r = Some i -> squares !! i = Some None).
Proof.
  intros _.
  destruct (findBestMove_cases squares M) as [[Hnil E]|(Hne & i0 & E & Hsel)].
  - exists None. split; [exact E|]. split; [|discriminate].
    split; [intros _|reflexivity]. now apply getAvailableMoves_nil.
  - exists (Some i0). split; [exact E|]. split.
    + split; [discriminate|]. intros H. now apply getAvailableMoves_nil in H.
    + intros i [= <-]. exact (selectedBy_null _ _ _ Hsel).
Qed.

Lemma findBestMove_null_iff_full_witness :
  exists r,
    findBestMove
      [Some X; Some O; Some X; Some X; Some O; Some O; Some O; Some X; Some X] O
    = Some (r, [Some X; Some O; Some X; Some X; Some O; Some O; Some O; Some X;
                Some X])
    /\ (r = None <->
        forall i,
          [Some X; Some O; Some X; Some X; Some O; Some O; Some O; Some X;
           Some X] !! i <> Some None)
    /\ (forall i,
          r = Some i ->
          [Some X; Some O; Some X; Some X; Some O; Some O; Some O; Some X;
           Some X] !! i = Some None).
Proof.
  apply findBestMove_null_iff_full. reflexivity.
Defined.

(** ** Game session *)

(** C8.  In a reachable state, a move on a square that is not null, or
    made when the game is over (the [winner] state is set, or, which is
    the same there, the board has a winner or is full), changes nothing:
    the handler returns the state as it is, so does the whole
    transition, and a click there yields no new state and no call. *)
Theorem rejected_move_is_noop (st : State) (index : nat) :
  reachable st ->
  isNull (board st) index = false
  \/ gameOver st = true
  \/ outcomeOf (board st) <> None ->
  handleMove st index = st
  /\ move st index = st
  /\ step st (Click index) = Some (st, []).
Proof.
  intros Hr Hrej.
  destruct (reachable_coherent st Hr) as (_ & Hw & _).
  assert (Hrej' : isNull (board st) index = false \/ gameOver st = true).
  { destruct Hrej as [H|[H|H]]; [now left|now right|right].
    unfold gameOver. rewrite Hw. now destruct (outcomeOf (board st)). }
  clear Hrej.
  assert (A : accepts st index = false).
  { unfold accepts. destruct Hrej' as [-> | ->];
      [apply andb_false_r|reflexivity]. }
  assert (H : handleMove st index = st) by now apply handleMove_rejected.
  split; [exact H|]. split.
  - unfold move. rewrite H. now apply winnerEffect_stable.
  - simpl. unfold squareDisabled.
    destruct Hrej' as [-> | ->]; [|reflexivity].
    simpl. now rewrite orb_true_r.
Qed.

(** After X took square 0, a second move on square 0. *)
Lemma rejected_move_is_noop_witness :
  handleMove (move initial 0) 0 = move initial 0
  /\ move (move initial 0) 0 = move initial 0
  /\ step (move initial 0) (Click 0) = Some (move initial 0, []).
Proof.
  apply rejected_move_is_noop.
  - apply (reach_step initial (Click 0) _ []); [apply reach_initial|reflexivity].
  - left. reflexivity.
Defined.

(** C9.  In a reachable state, an accepted move writes the current
    player's mark on the square, which was null, and changes no other
    square; the turn passes to the other mark, the outcome is the one
    the new board gives, and over any sequence of moves the marks
    written alternate. *)
Theorem accepted_move_changes_one_cell (st : State) (index : nat) :
  reachable st ->
  accepts st index = true ->
  board st !! index = Some None
  /\ board (move st index) = <[index := Some (currentPlayer st)]> (board st)
  /\ board (move st index) !! index = Some (Some (currentPlayer st))
  /\ (forall j, j <> index -> board (move st index) !! j = board st !! j)
  /\ (forall j p, board st !! j = Some (Some p) ->
                  board (move st index) !! j = Some (Some p))
  /\ wellFormed (board (move st index))
  /\ currentPlayer (move st index) = opponentOf (currentPlayer st)
  /\ winner (move st index) = outcomeOf (board (move st index))
  /\ (forall indices, alternating (currentPlayer st) (marksPlaced st indices)).
Proof.
  intros Hr A.
  pose proof (accepts_null st index A) as Hnull.
  pose proof (move_board st index A) as Hb.
  assert (Hother : forall j, j <> index ->
                     board (move st index) !! j = board st !! j).
  { intros j Hj. rewrite Hb. now apply list_lookup_insert_ne. }
  split; [exact Hnull|]. split; [exact Hb|]. split.
  { rewrite Hb. apply list_lookup_insert_eq.
    now apply lookup_lt_Some in Hnull. }
  split; [exact Hother|]. split.
  { intros j p Hj. rewrite Hother; [exact Hj|].
    intros ->. rewrite Hnull in Hj. discriminate. }
  split.
  { now destruct (coherent_move st index (reachable_coherent st Hr) A). }
  split.
  { pose proof (move_currentPlayer st index) as Hcp. now rewrite A in Hcp. }
  split; [now apply move_winner|].
  intros indices. apply marksPlaced_alternating.
Qed.

(** The first move of a game, on the centre square. *)
Lemma accepted_move_changes_one_cell_witness :
  board (move initial 4) !! 4%nat = Some (Some X)
  /\ currentPlayer (move initial 4) = O
  /\ marksPlaced initial [4; 4; 0; 8; 8; 2]%nat = [X; O; X; O].
Proof.
  destruct (accepted_move_changes_one_cell initial 4)
    as (_ & _ & H1 & _ & _ & _ & H2 & _ & _).
  - apply reach_initial.
  - reflexivity.
  - split; [exact H1|]. split; [exact H2|reflexivity].
Defined.

(** C10.  In every reachable state an untouched board has X to move;
    [findBestMove] is only called in AI mode, for O, on O's turn and on
    a board that already carries a mark; restart and mode change give
    the empty board with X to move and no winner; in AI mode a click
    that changes the state writes an X, and the automated move writes an
    O on a null square. *)
Theorem automated_player_is_O (st : State) (e : Event) (st' : State)
    (calls : list Call) :
  reachable st ->
  step st e = Some (st', calls) ->
  (board st = EMPTY_BOARD -> currentPlayer st = X)
  /\ (forall c, In c calls ->
        callPlayer c = O /\ mode st = AI /\ currentPlayer st = O
        /\ callSquares c = board st /\ callSquares c <> EMPTY_BOARD)
  /\ (e = Restart \/ (exists m, e = ModeChange m) ->
      board st' = EMPTY_BOARD /\ currentPlayer st' = X /\ winner st' = None)
  /\ (forall index, mode st = AI -> e = Click index ->
        st' = st
        \/ (currentPlayer st = X
            /\ board st' = <[index := Some X]> (board st)))
  /\ (e = AiTimeout ->
      st' = st
      \/ exists i, board st !! i = Some None
                   /\ board st' = <[i := Some O]> (board st)).
Proof.
  intros Hr Hstep.
  destruct (reachable_coherent st Hr) as (_ & _ & Hx).
  assert (Hfirst : board st = EMPTY_BOARD -> currentPlayer st = X).
  { intros Hb. unfold currentPlayer. destruct (xIsNext st); [reflexivity|].
    destruct (Hx eq_refl) as [i Hi]. rewrite Hb in Hi.
    apply lookup_replicate in Hi. destruct Hi as [Hi _]. discriminate. }
  assert (Harmed : aiArmed st = true -> mode st = AI /\ currentPlayer st = O).
  { unfold aiArmed. intros H. apply andb_true_iff in H. destruct H as [H Hp].
    apply andb_true_iff in H. destruct H as [Hm _].
    apply Player_eqb_eq in Hp. split; [|exact Hp]. now destruct (mode st). }
  split; [exact Hfirst|]. split; [|split; [|split]].
  - intros c Hc. destruct e as [index| |newMode|]; simpl in Hstep.
    + destruct (squareDisabled st index); injection Hstep as <- <-;
        destruct Hc.
    + injection Hstep as <- <-. destruct Hc.
    + injection Hstep as <- <-. destruct Hc.
    + destruct (aiArmed st) eqn:Harm;
        [|injection Hstep as <- <-; destruct Hc].
      destruct (Harmed eq_refl) as [Hm Hp].
      assert (Hcall : c = mkCall (board st) aiPlaysAs).
      { destruct (step_AiTimeout_armed st Harm) as [[_ E]|(i & _ & _ & E)];
          simpl in E; rewrite Harm in E; rewrite E in Hstep;
          injection Hstep as <- <-; destruct Hc as [<-|[]]; reflexivity. }
      rewrite Hcall. simpl. repeat split; try assumption.
      intros Hb. specialize (Hfirst Hb). rewrite Hp in Hfirst. discriminate.
  - intros [->|[m ->]]; simpl in Hstep; injection Hstep as <- <-;
      repeat split.
  - intros index Hm ->. simpl in Hstep.
    destruct (squareDisabled st index) eqn:D; injection Hstep as <- <-;
      [now left|right].
    pose proof (squareDisabled_accepts st index D) as A.
    assert (Hp : currentPlayer st = X).
    { unfold squareDisabled in D. rewrite Hm in D. simpl in D.
      destruct (currentPlayer st); [reflexivity|].
      simpl in D. now rewrite orb_true_r in D. }
    split; [exact Hp|]. rewrite <- Hp. now apply move_board.
  - intros ->. simpl in Hstep.
    destruct (aiArmed st) eqn:Harm; [|injection Hstep as <- <-; now left].
    destruct (Harmed eq_refl) as [_ Hp].
    destruct (step_AiTimeout_armed st Harm) as [[_ E]|(i & _ & A & E)];
      simpl in E; rewrite Harm in E; rewrite E in Hstep;
      injection Hstep as <- <-; [now left|right].
    exists i. split; [now apply accepts_null|].
    rewrite <- Hp. now apply move_board.
Qed.

(** AI mode, X on the centre square, then the automated move: one call,
    for O, on the board that carries the X. *)
Lemma automated_player_is_O_witness :
  callPlayer
    (mkCall [None; None; None; None; Some X; None; None; None; None] O) = O
  /\ mode (move (winnerEffect (handleModeChange initial AI)) 4) = AI
  /\ currentPlayer (move (winnerEffect (handleModeChange initial AI)) 4) = O
  /\ callSquares
       (mkCall [None; None; None; None; Some X; None; None; None; None] O)
     = board (move (winnerEffect (handleModeChange initial AI)) 4)
  /\ callSquares
       (mkCall [None; None; None; None; Some X; None; None; None; None] O)
     <> EMPTY_BOARD.
Proof.
  refine (proj1 (proj2
            (automated_player_is_O
               (move (winnerEffect (handleModeChange initial AI)) 4)
               AiTimeout
               (move (move (winnerEffect (handleModeChange initial AI)) 4) 0)
               [mkCall
                  [None; None; None; None; Some X; None; None; None; None] O]
               _ _))
            (mkCall [None; None; None; None; Some X; None; None; None; None] O)
            (or_introl eq_refl)).
  - apply (reach_step (winnerEffect (handleModeChange initial AI)) (Click 4) _ []).
    + apply (reach_step initial (ModeChange AI) _ []);
        [apply reach_initial|reflexivity].
    + reflexivity.
  - vm_compute. reflexivity.
Defined.

(** * Further properties of the code *)

(** ** Board model *)

Section Lines.
Implicit Types (squares : list cell) (p q : Player) (l : nat * nat * nat).

Lemma cell_eqb_refl (c : cell) : cell_eqb c c = true.
Proof. now apply cell_eqb_eq. Qed.

Lemma cell_eqb_false (c d : cell) : cell_eqb c d = false <-> c <> d.
Proof.
  split.
  - intros H E. apply cell_eqb_eq in E. congruence.
  - intros H. destruct (cell_eqb c d) eqn:E; [|reflexivity].
    apply cell_eqb_eq in E. contradiction.
Qed.

Lemma lineHeld_true squares p a b c :
  lineHeld squares p (a, b, c) = true <->
  sq squares a = Some p /\ sq squares b = Some p /\ sq squares c = Some p.
Proof.
  unfold lineHeld. rewrite !andb_true_iff, !cell_eqb_eq. tauto.
Qed.

(** One step of the scan: the test of [calculateWinner] on a line is
    that the line is held by the mark on its first square. *)
Lemma scanLines_cons squares a b c rest :
  scanLines squares ((a, b, c) :: rest)
  = match sq squares a with
    | Some p => if lineHeld squares p (a, b, c) then Some p
                else scanLines squares rest
    | None => scanLines squares rest
    end.
Proof.
  simpl. destruct (sq squares a) as [p|] eqn:Ea; [|reflexivity].
  rewrite cell_eqb_refl. simpl.
  destruct (sq squares b) as [[]|], (sq squares c) as [[]|], p; reflexivity.
Qed.

Lemma scanLines_Some squares ls p :
  scanLines squares ls = Some p ->
  exists l, In l ls /\ lineHeld squares p l = true.
Proof.
  induction ls as [|[[a b] c] rest IH]; [discriminate|].
  rewrite scanLines_cons.
  destruct (sq squares a) as [p'|] eqn:Ea.
  - destruct (lineHeld squares p' (a, b, c)) eqn:H.
    + intros [= <-]. exists (a, b, c). split; [now left|exact H].
    + intros E. destruct (IH E) as (l & Hl & Hh). exists l. split; [now right|easy].
  - intros E. destruct (IH E) as (l & Hl & Hh). exists l. split; [now right|easy].
Qed.

Lemma scanLines_None squares ls :
  scanLines squares ls = None <->
  (forall l q, In l ls -> lineHeld squares q l = false).
Proof.
  induction ls as [|[[a b] c] rest IH].
  - split; [intros _ l q []|reflexivity].
  - rewrite scanLines_cons. split.
    + intros E l q [<-|Hl].
      * destruct (lineHeld squares q (a, b, c)) eqn:H; [|reflexivity].
        pose proof H as H'. apply lineHeld_true in H'. destruct H' as [Ha _].
        rewrite Ha, H in E. discriminate.
      * destruct (sq squares a) as [p'|];
          [destruct (lineHeld squares p' (a, b, c)); [discriminate|]|];
          now apply (proj1 IH E).
    + intros H.
      assert (Hrest : scanLines squares rest = None).
      { apply IH. intros l q Hl. apply H. now right. }
      destruct (sq squares a) as [p'|]; [|exact Hrest].
      now rewrite (H (a, b, c) p' (or_introl eq_refl)).
Qed.

Lemma calculateWinner_None squares :
  calculateWinner squares = None <->
  (forall l q, In l lines -> lineHeld squares q l = false).
Proof. apply scanLines_None. Qed.

Lemma calculateWinner_Some squares p :
  calculateWinner squares = Some p ->
  exists l, In l lines /\ lineHeld squares p l = true.
Proof. apply scanLines_Some. Qed.

(** When lines are held by [p] only, [calculateWinner] returns [p]. *)
Lemma calculateWinner_only squares p :
  (exists l, In l lines /\ lineHeld squares p l = true) ->
  (forall l, In l lines -> lineHeld squares (opponentOf p) l = false) ->
  calculateWinner squares = Some p.
Proof.
  intros (l & Hl & Hh) Hopp.
  destruct (calculateWinner squares) as [q|] eqn:E.
  - apply calculateWinner_Some in E. destruct E as (l' & Hl' & Hh').
    assert (Hq : q = p \/ q = opponentOf p) by (destruct p, q; auto).
    destruct Hq as [->| ->]; [reflexivity|].
    rewrite (Hopp l' Hl') in Hh'. discriminate.
  - rewrite (proj1 (calculateWinner_None _) E l p Hl) in Hh. discriminate.
Qed.

Lemma evaluate_cases squares M :
  evaluate squares (opponentOf M) = - evaluate squares M
  /\ (evaluate squares M = 10 \/ evaluate squares M = 0
      \/ evaluate squares M = -10)
  /\ (evaluate squares M = 10 <-> calculateWinner squares = Some M)
  /\ (evaluate squares M = -10 <->
      calculateWinner squares = Some (opponentOf M)).
Proof.
  unfold evaluate.
  destruct (calculateWinner squares) as [[]|], M; simpl;
    repeat split; auto; try discriminate; try lia.
Qed.

End Lines.

(** X1.  [calculateWinner] returns a mark only if one of the eight lines
    is held by that mark; it returns [null] exactly when no line is held
    by either mark; and when lines are held by one mark only, it returns
    that mark. *)
Theorem calculateWinner_lines (squares : list cell) :
  (forall p, calculateWinner squares = Some p ->
             exists l, In l lines /\ lineHeld squares p l = true)
  /\ (calculateWinner squares = None <->
      forall l q, In l lines -> lineHeld squares q l = false)
  /\ (forall p,
        (exists l, In l lines /\ lineHeld squares p l = true) ->
        (forall l, In l lines -> lineHeld squares (opponentOf p) l = false) ->
        calculateWinner squares = Some p).
Proof.
  split; [|split].
  - intros p. apply calculateWinner_Some.
  - apply calculateWinner_None.
  - intros p. apply calculateWinner_only.
Qed.

Lemma calculateWinner_lines_witness :
  calculateWinner
    [Some O; Some X; None; Some O; Some X; None; None; Some X; None]
  = Some X.
Proof.
  apply (calculateWinner_lines
           [Some O; Some X; None; Some O; Some X; None; None; Some X; None]).
  - exists (1, 4, 7)%nat. split; [simpl; tauto|reflexivity].
  - intros l Hl. simpl in Hl.
    repeat (destruct Hl as [<-|Hl]; [reflexivity|]). destruct Hl.
Defined.

Lemma filter_seq_sorted (f : nat -> bool) (len start : nat) :
  Sorted.StronglySorted lt (List.filter f (seq start len)).
Proof.
  revert start. induction len as [|len IH]; intros start; simpl.
  - constructor.
  - destruct (f start); [|apply IH].
    constructor; [apply IH|].
    apply List.Forall_forall. intros j Hj.
    apply filter_In in Hj. destruct Hj as [Hj _]. apply in_seq in Hj. lia.
Qed.

(** X2.  [getAvailableMoves] lists exactly the null squares of the
    array, each once, inside the array and in ascending order. *)
Theorem getAvailableMoves_exact (squares : list cell) :
  (forall i, In i (getAvailableMoves squares) <-> squares !! i = Some None)
  /\ (forall i, In i (getAvailableMoves squares) -> (i < length squares)%nat)
  /\ List.NoDup (getAvailableMoves squares)
  /\ Sorted.StronglySorted lt (getAvailableMoves squares).
Proof.
  split; [apply getAvailableMoves_In|].
  split; [apply getAvailableMoves_lt|].
  split; [apply getAvailableMoves_NoDup|].
  apply filter_seq_sorted.
Qed.

(** X3.  [evaluate] is zero-sum: the score for one mark is the opposite
    of the score for the other; it is 10, 0 or -10, and 10 exactly when
    [calculateWinner] returns the mark itself. *)
Theorem evaluate_zero_sum (squares : list cell) (M : Player) :
  evaluate squares (opponentOf M) = - evaluate squares M
  /\ (evaluate squares M = 10 \/ evaluate squares M = 0
      \/ evaluate squares M = -10)
  /\ (evaluate squares M = 10 <-> calculateWinner squares = Some M)
  /\ (evaluate squares M = -10 <->
      calculateWinner squares = Some (opponentOf M)).
Proof.
  unfold evaluate.
  destruct (calculateWinner squares) as [[]|], M; simpl;
    repeat split; auto; try discriminate; try lia.
Qed.

(** ** Search engine *)

Section Snapshot.
Implicit Types (squares : list cell) (moves : list nat) (best : num).

(** The loop of [minimax] folds the values of the nested calls into
    [best] and leaves the array as it was. *)
Lemma searchLoop_fold rec mark pick (val : nat -> num) moves :
  forall best squares,
    (forall i, In i moves -> squares !! i = Some None) ->
    (forall i, In i moves ->
       rec (<[i := Some mark]> squares)
       = Some (val i, <[i := Some mark]> squares)) ->
    searchLoop rec mark pick moves best squares
    = Some (fold_left (fun b i => pick b (val i)) moves best, squares).
Proof.
  induction moves as [|move rest IH]; intros best squares Hnull Hrec; simpl.
  - reflexivity.
  - rewrite (Hrec move (or_introl eq_refl)).
    rewrite insert_restore by (apply Hnull; now left).
    apply IH; intros i Hi; [apply Hnull|apply Hrec]; now right.
Qed.

Lemma minimax_fuel_snapshot fuel :
  forall squares depth isMax aiPlayer,
    (length (getAvailableMoves squares) < fuel)%nat ->
    minimax_fuel fuel squares depth isMax aiPlayer
    = Some (snapshotMinimax fuel squares depth isMax aiPlayer, squares).
Proof.
  induction fuel as [|fuel IH]; intros squares depth isMax aiPlayer Hlt; [lia|].
  cbn [minimax_fuel snapshotMinimax].
  destruct ((evaluate squares aiPlayer =? 10)
            || (evaluate squares aiPlayer =? -10)); [reflexivity|].
  destruct (length (getAvailableMoves squares) =? 0)%nat; [reflexivity|].
  assert (Hnull : forall i, In i (getAvailableMoves squares) ->
                            squares !! i = Some None).
  { intros i. apply getAvailableMoves_In. }
  destruct isMax; apply searchLoop_fold; try exact Hnull;
    intros i Hi; apply IH;
    pose proof (getAvailableMoves_insert_length squares i aiPlayer (Hnull i Hi));
    pose proof (getAvailableMoves_insert_length squares i
                  (opponentOf aiPlayer) (Hnull i Hi));
    lia.
Qed.

(** A property of the folded values that [pick] preserves holds of the
    result of a loop that runs at least once. *)
Lemma fold_pick_invariant (pick : num -> num -> num) (init : num)
    (P : num -> Prop) (val : nat -> num) :
  (forall a v, a = init \/ P a -> P v -> P (pick a v)) ->
  forall moves best,
    (forall i, In i moves -> P (val i)) ->
    best = init \/ P best ->
    moves <> [] ->
    P (fold_left (fun b i => pick b (val i)) moves best).
Proof.
  intros Hpick. induction moves as [|m rest IH]; intros best Hval Hbest Hne;
    [now destruct Hne|].
  simpl. assert (Hm : P (pick best (val m))).
  { apply Hpick; [exact Hbest|]. apply Hval. now left. }
  destruct rest as [|m' rest']; [exact Hm|].
  apply IH; [intros i Hi; apply Hval; now right|now right|discriminate].
Qed.

Lemma num_max_inRange lo hi a v :
  a = NegInf \/ inRange lo hi a -> inRange lo hi v ->
  inRange lo hi (num_max a v).
Proof.
  intros [->|(x & -> & Hx)] (y & -> & Hy); simpl.
  - exists y. now split.
  - exists (Z.max x y). split; [reflexivity|lia].
Qed.

Lemma num_min_inRange lo hi a v :
  a = PosInf \/ inRange lo hi a -> inRange lo hi v ->
  inRange lo hi (num_min a v).
Proof.
  intros [->|(x & -> & Hx)] (y & -> & Hy); simpl.
  - exists y. now split.
  - exists (Z.min x y). split; [reflexivity|lia].
Qed.

Lemma snapshotMinimax_inRange fuel :
  forall squares depth isMax aiPlayer,
    0 <= depth ->
    depth + Z.of_nat (length (getAvailableMoves squares)) <= 10 ->
    (length (getAvailableMoves squares) < fuel)%nat ->
    inRange (-10 + depth) (10 - depth)
      (snapshotMinimax fuel squares depth isMax aiPlayer).
Proof.
  induction fuel as [|fuel IH]; intros squares depth isMax aiPlayer H0 H10 Hlt;
    [lia|].
  cbn [snapshotMinimax].
  destruct (evaluate_cases squares aiPlayer) as (_ & Hscore & _).
  destruct ((evaluate squares aiPlayer =? 10)
            || (evaluate squares aiPlayer =? -10)) eqn:Et.
  { eexists. split; [reflexivity|].
    destruct Hscore as [->|[->| ->]]; simpl; lia. }
  destruct (length (getAvailableMoves squares) =? 0)%nat eqn:E0.
  { exists 0. split; [reflexivity|lia]. }
  apply Nat.eqb_neq in E0.
  assert (Hne : getAvailableMoves squares <> []).
  { intros E. rewrite E in E0. now apply E0. }
  assert (Hrec : forall mark m i, In i (getAvailableMoves squares) ->
            inRange (-10 + depth) (10 - depth)
              (snapshotMinimax fuel (<[i := Some mark]> squares)
                 (depth + 1) m aiPlayer)).
  { intros mark m i Hi. apply getAvailableMoves_In in Hi.
    pose proof (getAvailableMoves_insert_length squares i mark Hi) as Hless.
    destruct (IH (<[i := Some mark]> squares) (depth + 1) m aiPlayer)
      as (z & -> & Hz); [lia|lia|lia|].
    exists z. split; [reflexivity|lia]. }
  destruct isMax.
  - apply (fold_pick_invariant num_max NegInf); auto.
    apply num_max_inRange.
  - apply (fold_pick_invariant num_min PosInf); auto.
    apply num_min_inRange.
Qed.

Lemma num_opp_max a b : num_opp (num_max a b) = num_min (num_opp a) (num_opp b).
Proof.
  destruct a as [|x|], b as [|y|]; simpl; try reflexivity.
  f_equal. lia.
Qed.

Lemma num_opp_involutive a : num_opp (num_opp a) = a.
Proof. destruct a; simpl; try reflexivity. f_equal. lia. Qed.

Lemma fold_opp (f g : nat -> num) moves :
  (forall i, In i moves -> f i = num_opp (g i)) ->
  forall a,
    fold_left (fun b i => num_max b (f i)) moves (num_opp a)
    = num_opp (fold_left (fun b i => num_min b (g i)) moves a).
Proof.
  induction moves as [|m rest IH]; intros Hfg a; simpl; [reflexivity|].
  rewrite (Hfg m (or_introl eq_refl)).
  rewrite <- (num_opp_involutive (num_max (num_opp a) (num_opp (g m)))).
  rewrite num_opp_max, !num_opp_involutive.
  apply IH. intros i Hi. apply Hfg. now right.
Qed.

Lemma snapshotMinimax_opp fuel :
  forall squares depth isMax aiPlayer,
    snapshotMinimax fuel squares depth isMax aiPlayer
    = num_opp (snapshotMinimax fuel squares depth (negb isMax)
                 (opponentOf aiPlayer)).
Proof.
  induction fuel as [|fuel IH]; intros squares depth isMax aiPlayer.
  - reflexivity.
  - cbn [snapshotMinimax].
    destruct (evaluate_cases squares aiPlayer) as (Hopp & Hscore & _).
    rewrite Hopp, opponentOf_involutive.
    destruct Hscore as [E|[E|E]]; rewrite E; simpl;
      [f_equal; lia| |f_equal; lia].
    destruct (length (getAvailableMoves squares) =? 0)%nat; [reflexivity|].
    destruct isMax; simpl.
    + apply (fold_opp _ _ _ (fun i _ => IH _ _ false aiPlayer) PosInf).
    + rewrite <- (num_opp_involutive (fold_left _ _ PosInf)). f_equal.
      symmetry.
      refine (fold_opp
                (fun i => snapshotMinimax fuel
                            (<[i := Some (opponentOf aiPlayer)]> squares)
                            (depth + 1) false (opponentOf aiPlayer))
                (fun i => snapshotMinimax fuel
                            (<[i := Some (opponentOf aiPlayer)]> squares)
                            (depth + 1) true aiPlayer)
                (getAvailableMoves squares) _ PosInf).
      intros i _. rewrite IH. simpl. now rewrite opponentOf_involutive.
Qed.

End Snapshot.

Lemma minimax_eq_snapshot fuel squares depth isMax M :
  (length (getAvailableMoves squares) < fuel)%nat ->
  minimax squares depth isMax M
  = Some (snapshotMinimax fuel squares depth isMax M, squares).
Proof.
  intros Hlt. rewrite <- (minimax_fuel_minimax fuel) by exact Hlt.
  now apply minimax_fuel_snapshot.
Qed.

Lemma minimax_inRange squares depth isMax M :
  0 <= depth ->
  depth + Z.of_nat (length (getAvailableMoves squares)) <= 10 ->
  exists z,
    minimax squares depth isMax M = Some (Num z, squares)
    /\ -10 + depth <= z <= 10 - depth.
Proof.
  intros H0 H10.
  pose proof (getAvailableMoves_length_le squares) as Hle.
  rewrite (minimax_eq_snapshot (S (length squares))) by lia.
  destruct (snapshotMinimax_inRange (S (length squares)) squares depth isMax M)
    as (z & -> & Hz); [exact H0|exact H10|lia|].
  exists z. now split.
Qed.

(** X4.  The search that writes a move, recurses and writes null back
    computes what the search on board snapshots computes, and returns
    the array unchanged: with any fuel above the number of null squares,
    [minimax] returns the snapshot value. *)
Theorem minimax_snapshot (fuel : nat) (squares : list cell) (depth : Z)
    (isMax : bool) (M : Player) :
  (length (getAvailableMoves squares) < fuel)%nat ->
  minimax squares depth isMax M
  = Some (snapshotMinimax fuel squares depth isMax M, squares).
Proof.
  intros Hlt. rewrite <- (minimax_fuel_minimax fuel) by exact Hlt.
  now apply minimax_fuel_snapshot.
Qed.

Lemma minimax_snapshot_witness :
  minimax [Some X; Some O; Some X; None; Some O; None; None; Some X; None]
    0 true X
  = Some (snapshotMinimax 5
            [Some X; Some O; Some X; None; Some O; None; None; Some X; None]
            0 true X,
          [Some X; Some O; Some X; None; Some O; None; None; Some X; None]).
Proof.
  apply minimax_snapshot. vm_compute. lia.
Defined.

(** X6.  The search is zero-sum: searching for the other mark with the
    roles of maximizer and minimizer exchanged gives the opposite
    value. *)
Theorem minimax_zero_sum (squares : list cell) (depth : Z) (isMax : bool)
    (M : Player) :
  exists v,
    minimax squares depth isMax M = Some (v, squares)
    /\ minimax squares depth (negb isMax) (opponentOf M)
       = Some (num_opp v, squares).
Proof.
  pose proof (getAvailableMoves_length_le squares) as Hle.
  exists (snapshotMinimax (S (length squares)) squares depth isMax M).
  rewrite !(minimax_eq_snapshot (S (length squares))) by lia.
  split; [reflexivity|].
  rewrite (snapshotMinimax_opp _ _ _ isMax M), num_opp_involutive.
  reflexivity.
Qed.

(** ** Move selector: every tier returns a move of greatest value *)

Section Optimal.
Implicit Types (squares : list cell) (p q m : Player) (l : nat * nat * nat).

Lemma opponentOf_ne p : opponentOf p <> p.
Proof. now destruct p. Qed.

Lemma sq_insert_ne squares i j (c : cell) :
  i <> j -> sq (<[i := c]> squares) j = sq squares j.
Proof. intros H. unfold sq. now rewrite list_lookup_insert_ne. Qed.

(** A square that holds [q] after [m] was written somewhere held [q]
    before, when [q] is not [m]. *)
Lemma sq_insert_other squares i m q x :
  q <> m -> sq (<[i := Some m]> squares) x = Some q -> sq squares x = Some q.
Proof.
  intros Hqm. destruct (Nat.eq_dec i x) as [->|Hne].
  - destruct (Nat.lt_ge_cases x (length squares)) as [Hlt|Hge].
    + unfold sq at 1. rewrite list_lookup_insert_eq by exact Hlt. congruence.
    + now rewrite list_insert_ge.
  - now rewrite sq_insert_ne.
Qed.

Lemma sq_insert_keep squares i m q x :
  squares !! i = Some None -> sq squares x = Some q ->
  sq (<[i := Some m]> squares) x = Some q.
Proof.
  intros Hi Hx. rewrite sq_insert_ne; [exact Hx|].
  intros ->. unfold sq in Hx. rewrite Hi in Hx. discriminate.
Qed.

Lemma lineHeld_insert_other squares i m q l :
  q <> m -> lineHeld (<[i := Some m]> squares) q l = true ->
  lineHeld squares q l = true.
Proof.
  intros Hqm. destruct l as [[a b] c]. rewrite !lineHeld_true.
  intros (Ha & Hb & Hc). repeat split; eapply sq_insert_other; eauto.
Qed.

Lemma lineHeld_insert_keep squares i m q l :
  squares !! i = Some None -> lineHeld squares q l = true ->
  lineHeld (<[i := Some m]> squares) q l = true.
Proof.
  intros Hi. destruct l as [[a b] c]. rewrite !lineHeld_true.
  intros (Ha & Hb & Hc). repeat split; now apply sq_insert_keep.
Qed.

(** Writing [m] on a null square of a board where the other mark holds
    no line cannot make [calculateWinner] return the other mark. *)
Lemma calculateWinner_insert squares i m :
  (forall l, In l lines -> lineHeld squares (opponentOf m) l = false) ->
  calculateWinner (<[i := Some m]> squares) <> Some (opponentOf m).
Proof.
  intros Hno E.
  apply calculateWinner_Some in E. destruct E as (l & Hl & Hh).
  apply lineHeld_insert_other in Hh; [|apply opponentOf_ne].
  rewrite (Hno l Hl) in Hh. discriminate.
Qed.

Lemma minimax_terminal squares depth isMax M :
  evaluate squares M = 10 \/ evaluate squares M = -10 ->
  minimax squares depth isMax M
  = Some (Num (evaluate squares M - depth * Z.sgn (evaluate squares M)),
          squares).
Proof.
  intros H. unfold minimax. cbn [minimax_fuel].
  destruct H as [E|E]; rewrite E; reflexivity.
Qed.

(** A search that starts on a board without winner gives a value that
    nested calls produced, or 0. *)
Lemma minimax_nonterminal_range squares depth isMax M :
  evaluate squares M = 0 ->
  0 <= depth ->
  depth + Z.of_nat (length (getAvailableMoves squares)) <= 10 ->
  depth + 1 <= 10 ->
  exists z,
    minimax squares depth isMax M = Some (Num z, squares)
    /\ -10 + (depth + 1) <= z <= 10 - (depth + 1).
Proof.
  intros E H0 H10 H1.
  pose proof (getAvailableMoves_length_le squares) as Hle.
  rewrite (minimax_eq_snapshot (S (length squares))) by lia.
  enough (Hr : inRange (-10 + (depth + 1)) (10 - (depth + 1))
                 (snapshotMinimax (S (length squares)) squares depth isMax M)).
  { destruct Hr as (z & -> & Hb). exists z. now split. }
  cbn [snapshotMinimax]. rewrite E. simpl.
  destruct (length (getAvailableMoves squares) =? 0)%nat eqn:E0.
  { exists 0. split; [reflexivity|lia]. }
  apply Nat.eqb_neq in E0.
  assert (Hne : getAvailableMoves squares <> []).
  { intros En. rewrite En in E0. now apply E0. }
  assert (Hrec : forall mark b i, In i (getAvailableMoves squares) ->
            inRange (-10 + (depth + 1)) (10 - (depth + 1))
              (snapshotMinimax (length squares) (<[i := Some mark]> squares)
                 (depth + 1) b M)).
  { intros mark b i Hi. apply getAvailableMoves_In in Hi.
    pose proof (getAvailableMoves_insert_length squares i mark Hi) as Hless.
    apply snapshotMinimax_inRange; lia. }
  destruct isMax.
  - apply (fold_pick_invariant num_max NegInf); auto.
    apply num_max_inRange.
  - apply (fold_pick_invariant num_min PosInf); auto.
    apply num_min_inRange.
Qed.

Lemma fold_min_le_best (val : nat -> num) moves :
  (forall k, In k moves -> isNum (val k)) ->
  forall b, exists x,
    fold_left (fun a k => num_min a (val k)) moves (Num b) = Num x /\ x <= b.
Proof.
  induction moves as [|k rest IH]; intros Hnum b; simpl.
  - exists b. split; [reflexivity|lia].
  - destruct (Hnum k (or_introl eq_refl)) as [v ->]. simpl.
    destruct (IH (fun j Hj => Hnum j (or_intror Hj)) (Z.min b v))
      as (x & -> & Hx).
    exists x. split; [reflexivity|lia].
Qed.

(** The minimizing loop returns at most each of the values it folds. *)
Lemma fold_min_le (val : nat -> num) moves i v :
  (forall k, In k moves -> isNum (val k)) ->
  In i moves -> val i = Num v ->
  forall best, best <> NegInf ->
    exists x,
      fold_left (fun a k => num_min a (val k)) moves best = Num x /\ x <= v.
Proof.
  induction moves as [|k rest IH]; intros Hnum Hi Hv best Hbest; [destruct Hi|].
  simpl. assert (Hrest : forall j, In j rest -> isNum (val j)).
  { intros j Hj. apply Hnum. now right. }
  destruct Hi as [->|Hi].
  - rewrite Hv.
    destruct best as [|b|]; [now destruct Hbest| |]; simpl.
    + destruct (fold_min_le_best val rest Hrest (Z.min b v)) as (x & -> & Hx).
      exists x. split; [reflexivity|lia].
    + destruct (fold_min_le_best val rest Hrest v) as (x & -> & Hx).
      exists x. split; [reflexivity|lia].
  - apply IH; try assumption.
    destruct (Hnum k (or_introl eq_refl)) as [w ->].
    destruct best as [|b|]; [now destruct Hbest| |]; discriminate.
Qed.

End Optimal.

Lemma snapshotMinimax_terminal fuel (squares : list cell) depth isMax M :
  evaluate squares M = 10 \/ evaluate squares M = -10 ->
  snapshotMinimax (S fuel) squares depth isMax M
  = Num (evaluate squares M - depth * Z.sgn (evaluate squares M)).
Proof. intros H. cbn [snapshotMinimax]. destruct H as [E|E]; now rewrite E. Qed.

Lemma snapshotMinimax_minimizing fuel (squares : list cell) depth M :
  evaluate squares M = 0 -> getAvailableMoves squares <> [] ->
  snapshotMinimax (S fuel) squares depth false M
  = fold_left
      (fun best move =>
         num_min best
           (snapshotMinimax fuel (<[move := Some (opponentOf M)]> squares)
              (depth + 1) true M))
      (getAvailableMoves squares) PosInf.
Proof.
  intros E Hne. cbn [snapshotMinimax]. rewrite E.
  change ((0 =? 10) || (0 =? -10)) with false. cbv iota.
  destruct (getAvailableMoves squares) as [|m rest]; [now destruct Hne|].
  reflexivity.
Qed.

Section Tiers.
Implicit Types (squares : list cell) (M : Player).

Lemma moveValue_le_10 squares M j w :
  wellFormed squares -> squares !! j = Some None ->
  moveValue squares M j w -> w <= 10.
Proof.
  intros Hwf Hj Hw.
  pose proof (getAvailableMoves_insert_length squares j M Hj) as Hless.
  pose proof (getAvailableMoves_length_le squares) as Hle.
  unfold wellFormed in Hwf.
  destruct (minimax_inRange (<[j := Some M]> squares) 0 false M)
    as (z & Hz & Hb); [lia|lia|].
  unfold moveValue in Hw. rewrite Hz in Hw. injection Hw as <-. lia.
Qed.

(** Tier 1: the immediate win has value 10, which no move exceeds. *)
Lemma lowestWin_bestValue squares M i :
  wellFormed squares -> lowestWin squares M i -> bestValue squares M i.
Proof.
  intros Hwf [W _]. apply winsAt_true in W. destruct W as [Hi W].
  apply cell_eqb_eq in W.
  assert (E : evaluate (<[i := Some M]> squares) M = 10).
  { now apply (evaluate_cases (<[i := Some M]> squares) M). }
  exists 10. split.
  - unfold moveValue. rewrite minimax_terminal by now left.
    rewrite E. reflexivity.
  - intros j w Hj Hw. exact (moveValue_le_10 _ _ _ _ Hwf Hj Hw).
Qed.

(** Without an immediate win, a move leaves a board that [M] has not
    won. *)
Lemma no_win_after squares M j :
  hasImmediate squares M = false -> squares !! j = Some None ->
  calculateWinner (<[j := Some M]> squares) <> Some M.
Proof.
  intros Hno Hj E.
  pose proof (proj1 (hasImmediate_false _ _) Hno j) as W.
  assert (W' : winsAt squares M j = true).
  { apply winsAt_true. split; [now apply getAvailableMoves_In|].
    now apply cell_eqb_eq. }
  congruence.
Qed.

(** Tier 2 on a board where the opponent already holds a line: every
    move has value -10. *)
Lemma lost_board_values squares M l j :
  hasImmediate squares M = false ->
  In l lines -> lineHeld squares (opponentOf M) l = true ->
  squares !! j = Some None ->
  moveValue squares M j (-10).
Proof.
  intros Hno Hl Hh Hj.
  assert (E : calculateWinner (<[j := Some M]> squares) = Some (opponentOf M)).
  { destruct (calculateWinner (<[j := Some M]> squares)) as [q|] eqn:E.
    - assert (Hq : q = M \/ q = opponentOf M) by (destruct M, q; auto).
      destruct Hq as [->| ->]; [|reflexivity].
      destruct (no_win_after squares M j Hno Hj E).
    - pose proof (proj1 (calculateWinner_None _) E l (opponentOf M) Hl) as F.
      rewrite (lineHeld_insert_keep _ _ _ _ _ Hj Hh) in F. discriminate. }
  apply (evaluate_cases (<[j := Some M]> squares) M) in E.
  unfold moveValue. rewrite minimax_terminal by now right.
  rewrite E. reflexivity.
Qed.

(** Tier 2 on a board where the opponent holds no line: a move other
    than the block [b] lets the opponent win at once, for a value of at
    most -9. *)
Lemma unblocked_value squares M b j w :
  wellFormed squares ->
  hasImmediate squares M = false ->
  (forall l, In l lines -> lineHeld squares (opponentOf M) l = false) ->
  winsAt squares (opponentOf M) b = true ->
  squares !! j = Some None -> j <> b ->
  moveValue squares M j w -> w <= -9.
Proof.
  intros Hwf Hno Hnoline Hb Hj Hjb Hw.
  apply winsAt_true in Hb. destruct Hb as [Hb Wb].
  apply getAvailableMoves_In in Hb. apply cell_eqb_eq in Wb.
  set (sj := <[j := Some M]> squares) in *.
  assert (Hlen : length sj = 9%nat) by (unfold sj; now rewrite length_insert).
  assert (Hbj : sj !! b = Some None).
  { unfold sj. now rewrite list_lookup_insert_ne. }
  assert (Ej : calculateWinner sj = None).
  { destruct (calculateWinner sj) as [q|] eqn:E; [|reflexivity].
    assert (Hq : q = M \/ q = opponentOf M) by (destruct M, q; auto).
    destruct Hq as [->| ->].
    - destruct (no_win_after squares M j Hno Hj E).
    - destruct (calculateWinner_insert squares j M Hnoline E). }
  assert (Eb : calculateWinner (<[b := Some (opponentOf M)]> sj)
               = Some (opponentOf M)).
  { apply calculateWinner_only.
    - apply calculateWinner_Some in Wb. destruct Wb as (l & Hl & Hh).
      exists l. split; [exact Hl|].
      unfold sj. rewrite list_insert_insert_ne by congruence.
      apply lineHeld_insert_keep; [|exact Hh].
      now rewrite list_lookup_insert_ne by congruence.
    - intros l Hl. rewrite opponentOf_involutive.
      destruct (lineHeld (<[b := Some (opponentOf M)]> sj) M l) eqn:F;
        [|reflexivity].
      apply lineHeld_insert_other in F;
        [|intros E; symmetry in E; now apply opponentOf_ne in E].
      now rewrite (proj1 (calculateWinner_None _) Ej l M Hl) in F. }
  pose proof (getAvailableMoves_length_le squares) as Hle.
  pose proof (getAvailableMoves_insert_length squares j M Hj) as Hless.
  fold sj in Hless. unfold wellFormed in Hwf.
  unfold moveValue in Hw. fold sj in Hw.
  rewrite (minimax_eq_snapshot (S (length sj))) in Hw by lia.
  apply (f_equal (fun r => match r with Some (v, _) => v | None => NegInf end))
    in Hw.
  assert (E0 : evaluate sj M = 0) by (unfold evaluate; now rewrite Ej).
  assert (Hin : In b (getAvailableMoves sj)) by now apply getAvailableMoves_In.
  rewrite snapshotMinimax_minimizing in Hw;
    [|exact E0|intros En; rewrite En in Hin; destruct Hin].
  destruct (fold_min_le
              (fun k => snapshotMinimax (length sj)
                          (<[k := Some (opponentOf M)]> sj) (0 + 1) true M)
              (getAvailableMoves sj) b (-9)) with (best := PosInf)
    as (x & Hx & Hle9); try easy.
  - intros k Hk. apply getAvailableMoves_In in Hk.
    pose proof (getAvailableMoves_insert_length sj k (opponentOf M) Hk).
    destruct (snapshotMinimax_inRange (length sj)
                (<[k := Some (opponentOf M)]> sj) (0 + 1) true M)
      as (z & -> & _); [lia|lia|lia|].
    now exists z.
  - apply (evaluate_cases (<[b := Some (opponentOf M)]> sj) M) in Eb.
    rewrite Hlen, snapshotMinimax_terminal by now right.
    rewrite Eb. reflexivity.
  - rewrite Hx in Hw. injection Hw as <-. exact Hle9.
Qed.

(** Tier 2: the block has a value that no move exceeds. *)
Lemma block_bestValue squares M b :
  wellFormed squares ->
  hasImmediate squares M = false ->
  lowestWin squares (opponentOf M) b ->
  bestValue squares M b.
Proof.
  intros Hwf Hno [Wb _].
  pose proof Wb as Hb. apply winsAt_true in Hb. destruct Hb as [Hb _].
  apply getAvailableMoves_In in Hb.
  destruct (existsb (lineHeld squares (opponentOf M)) lines) eqn:Ex.
  - apply existsb_exists in Ex. destruct Ex as (l & Hl & Hh).
    exists (-10). split; [exact (lost_board_values _ _ _ _ Hno Hl Hh Hb)|].
    intros j w Hj Hw.
    rewrite (moveValue_fun _ _ _ _ _ Hw
               (lost_board_values _ _ _ _ Hno Hl Hh Hj)). lia.
  - assert (Hnoline : forall l, In l lines ->
                        lineHeld squares (opponentOf M) l = false).
    { intros l Hl. destruct (lineHeld squares (opponentOf M) l) eqn:F;
        [|reflexivity].
      rewrite <- Ex. symmetry. apply existsb_exists. eauto. }
    assert (Eb : evaluate (<[b := Some M]> squares) M = 0).
    { unfold evaluate.
      destruct (calculateWinner (<[b := Some M]> squares)) as [q|] eqn:E;
        [|reflexivity].
      assert (Hq : q = M \/ q = opponentOf M) by (destruct M, q; auto).
      destruct Hq as [->| ->].
      - destruct (no_win_after squares M b Hno Hb E).
      - destruct (calculateWinner_insert squares b M Hnoline E). }
    pose proof (getAvailableMoves_length_le squares) as Hle.
    pose proof (getAvailableMoves_insert_length squares b M Hb) as Hless.
    unfold wellFormed in Hwf.
    destruct (minimax_nonterminal_range (<[b := Some M]> squares) 0 false M Eb)
      as (z & Hz & Hzb); [lia|lia|lia|].
    exists z. split; [exact Hz|].
    intros j w Hj Hw. destruct (Nat.eq_dec j b) as [->|Hjb].
    + rewrite (moveValue_fun _ _ _ _ _ Hw Hz). lia.
    + pose proof (unblocked_value _ _ _ _ _ Hwf Hno Hnoline Wb Hj Hjb Hw). lia.
Qed.

End Tiers.

(** X5.  When [depth] is not negative and [depth] plus the number of
    null squares is at most 10, as in every search [findBestMove] starts
    on nine squares, the value of [minimax] lies between [-10 + depth]
    and [10 - depth]; on a board that nobody has won it lies strictly
    inside, between [-9 + depth] and [9 - depth]. *)
Theorem minimax_value_range (squares : list cell) (depth : Z) (isMax : bool)
    (M : Player) :
  0 <= depth ->
  depth + Z.of_nat (length (getAvailableMoves squares)) <= 10 ->
  exists z,
    minimax squares depth isMax M = Some (Num z, squares)
    /\ -10 + depth <= z <= 10 - depth
    /\ (evaluate squares M = 0 -> depth < 10 ->
        -9 + depth <= z <= 9 - depth).
Proof.
  intros H0 H10.
  destruct (minimax_inRange squares depth isMax M H0 H10) as (z & Hz & Hb).
  exists z. split; [exact Hz|]. split; [exact Hb|].
  intros E Hd.
  destruct (minimax_nonterminal_range squares depth isMax M E H0 H10)
    as (z' & Hz' & Hb'); [lia|].
  rewrite Hz in Hz'. injection Hz' as <-. lia.
Qed.

Lemma minimax_value_range_witness :
  exists z,
    minimax [Some X; None; None; None; Some O; None; None; None; None]
      2 true X
    = Some (Num z, [Some X; None; None; None; Some O; None; None; None; None])
    /\ -10 + 2 <= z <= 10 - 2
    /\ (evaluate [Some X; None; None; None; Some O; None; None; None; None] X
        = 0 -> 2 < 10 -> -9 + 2 <= z <= 9 - 2).
Proof.
  apply minimax_value_range; [lia|vm_compute; discriminate].
Defined.

(** X7.  On a well-formed board, whichever tier produces it, the move
    [findBestMove] returns has the greatest [minimax] value among the
    available moves: the immediate win and the immediate block never
    cost value against the full search. *)
Theorem findBestMove_optimal (squares : list cell) (M : Player) :
  wellFormed squares ->
  exists r,
    findBestMove squares M = Some (r, squares)
    /\ forall i, r = Some i -> bestValue squares M i.
Proof.
  intros Hwf.
  destruct (findBestMove_cases squares M) as [[_ E]|(_ & i0 & E & Hsel)].
  - exists None. split; [exact E|]. discriminate.
  - exists (Some i0). split; [exact E|]. intros i [= <-].
    destruct Hsel as [L|[(N & L)|(_ & _ & B)]].
    + now apply lowestWin_bestValue.
    + now apply block_bestValue.
    + destruct B as (_ & z & Hz & Hmax). exists z. split; [exact Hz|].
      intros j w Hj Hw. now destruct (Hmax j w Hj Hw).
Qed.

(** X threatens at squares 2 and 6 and O has no immediate win: the
    block at 2 is as good as any move. *)
Lemma findBestMove_optimal_witness :
  findBestMove
    [Some X; Some X; None; Some X; Some O; None; None; Some O; None] O
  = Some (Some 2%nat,
          [Some X; Some X; None; Some X; Some O; None; None; Some O; None])
  /\ bestValue
       [Some X; Some X; None; Some X; Some O; None; None; Some O; None] O 2.
Proof.
  destruct (findBestMove_optimal
              [Some X; Some X; None; Some X; Some O; None; None; Some O; None]
              O eq_refl) as (r & E & B).
  assert (Hr : r = Some 2%nat) by (vm_compute in E; congruence).
  rewrite Hr in E. split; [exact E|]. apply B. exact Hr.
Defined.

(** ** Game session: invariants of the reachable states *)

Section Reachable.
Implicit Types (st : State) (squares : list cell).

Lemma sq_EMPTY_BOARD a : sq EMPTY_BOARD a = None.
Proof.
  unfold sq. destruct (EMPTY_BOARD !! a) as [c|] eqn:E; [|reflexivity].
  apply lookup_replicate in E. now destruct E.
Qed.

Lemma lineHeld_EMPTY_BOARD q l : lineHeld EMPTY_BOARD q l = false.
Proof.
  destruct l as [[a b] c]. unfold lineHeld. now rewrite sq_EMPTY_BOARD.
Qed.

Lemma outcomeOf_None squares :
  outcomeOf squares = None ->
  calculateWinner squares = None /\ boardFull squares = false.
Proof.
  unfold outcomeOf. destruct (calculateWinner squares); [discriminate|].
  now destruct (boardFull squares).
Qed.

Lemma boardFull_false squares :
  boardFull squares = false -> exists i, squares !! i = Some None.
Proof.
  induction squares as [|c rest IH]; [discriminate|].
  unfold boardFull. simpl. destruct c as [p|]; simpl.
  - intros H. destruct (IH H) as [i Hi]. now exists (S i).
  - intros _. now exists 0%nat.
Qed.

Lemma boardFull_true squares :
  boardFull squares = true -> forall i, squares !! i <> Some None.
Proof.
  induction squares as [|c rest IH]; intros H i; [now destruct i|].
  unfold boardFull in H. simpl in H. apply andb_true_iff in H.
  destruct H as [Hc H]. destruct i as [|i]; simpl.
  - intros [= ->]. discriminate.
  - now apply IH.
Qed.

Lemma countCell_cons (c x : cell) squares :
  countCell c (x :: squares)
  = ((if cell_eqb c x then 1 else 0) + countCell c squares)%nat.
Proof. unfold countCell. simpl. now destruct (cell_eqb c x). Qed.

(** Overwriting one square moves one unit between the counts. *)
Lemma countCell_insert (c : cell) squares :
  forall i (c0 c1 : cell),
    squares !! i = Some c0 ->
    (countCell c (<[i := c1]> squares) + (if cell_eqb c c0 then 1 else 0)
     = countCell c squares + (if cell_eqb c c1 then 1 else 0))%nat.
Proof.
  induction squares as [|x rest IH]; intros i c0 c1 Hi; [now destruct i|].
  destruct i as [|i]; simpl in Hi |- *.
  - injection Hi as ->. rewrite !countCell_cons. lia.
  - rewrite !countCell_cons. specialize (IH i c0 c1 Hi). lia.
Qed.

Lemma countCell_total squares :
  (countCell (Some X) squares + countCell (Some O) squares
   + countCell None squares = length squares)%nat.
Proof.
  induction squares as [|x rest IH]; [reflexivity|].
  rewrite !countCell_cons. simpl. destruct x as [[]|]; simpl; lia.
Qed.

Lemma linesOfLastMover_move st index :
  coherent st -> accepts st index = true -> linesOfLastMover (move st index).
Proof.
  intros (_ & Hw & _) A l q Hl Hh.
  pose proof (move_currentPlayer st index) as Hcp. rewrite A in Hcp.
  rewrite Hcp, opponentOf_involutive.
  rewrite (move_board st index A) in Hh.
  rewrite (accepts_winner st index A) in Hw. symmetry in Hw.
  apply outcomeOf_None in Hw. destruct Hw as [Hw _].
  destruct (Player_eqb q (currentPlayer st)) eqn:E;
    [now apply Player_eqb_eq|].
  apply lineHeld_insert_other in Hh.
  - now rewrite (proj1 (calculateWinner_None _) Hw l q Hl) in Hh.
  - intros ->. now rewrite (proj2 (Player_eqb_eq _ _) eq_refl) in E.
Qed.

Lemma balanced_move st index :
  balanced st -> accepts st index = true -> balanced (move st index).
Proof.
  unfold balanced. intros Hb A.
  pose proof (accepts_null st index A) as Hnull.
  rewrite (move_board st index A).
  pose proof (countCell_insert (Some X) (board st) index None
                (Some (currentPlayer st)) Hnull) as HX.
  pose proof (countCell_insert (Some O) (board st) index None
                (Some (currentPlayer st)) Hnull) as HO.
  unfold move. rewrite winnerEffect_xIsNext.
  rewrite (handleMove_accepted st index A). cbn [xIsNext].
  unfold currentPlayer in *.
  destruct (xIsNext st); simpl in HX, HO |- *; lia.
Qed.

(** Both invariants pass through every event. *)
Lemma step_invariants st e st' calls :
  coherent st -> linesOfLastMover st /\ balanced st ->
  step st e = Some (st', calls) ->
  linesOfLastMover st' /\ balanced st'.
Proof.
  intros Hc [Hl Hb].
  assert (Hreset : forall s, linesOfLastMover (winnerEffect (resetGame s))
                             /\ balanced (winnerEffect (resetGame s))).
  { intros s. split; [|reflexivity].
    intros l q _ Hh. simpl in Hh. now rewrite lineHeld_EMPTY_BOARD in Hh. }
  assert (Hmove : forall i, accepts st i = true ->
                    linesOfLastMover (move st i) /\ balanced (move st i)).
  { intros i A. split;
      [now apply linesOfLastMover_move|now apply balanced_move]. }
  destruct e as [index| |newMode|]; simpl.
  - destruct (squareDisabled st index) eqn:D; intros [= <- <-]; [now split|].
    now apply Hmove, squareDisabled_accepts.
  - intros [= <- <-]. apply Hreset.
  - intros [= <- <-]. apply Hreset.
  - destruct (aiArmed st) eqn:Harm; [|intros [= <- <-]; now split].
    destruct (step_AiTimeout_armed st Harm) as [[_ E]|(i & _ & A & E)];
      simpl in E; rewrite Harm in E; rewrite E; intros [= <- <-];
      [now split|now apply Hmove].
Qed.

Lemma reachable_invariants st :
  reachable st -> linesOfLastMover st /\ balanced st.
Proof.
  induction 1 as [|st e st' calls Hr IH E].
  - split; [|reflexivity].
    intros l q _ Hh. simpl in Hh. now rewrite lineHeld_EMPTY_BOARD in Hh.
  - exact (step_invariants _ _ _ _ (reachable_coherent st Hr) IH E).
Qed.

End Reachable.

(** X8.  In every reachable state a held line belongs to the player who
    moved last, and [winner] names that player: the two marks never both
    hold a line, and a player never wins on the other's move. *)
Theorem winner_moved_last (st : State) :
  reachable st ->
  (forall l q, In l lines -> lineHeld (board st) q l = true ->
     q = opponentOf (currentPlayer st) /\ winner st = Some (Won q))
  /\ (forall p, winner st = Some (Won p) ->
        currentPlayer st = opponentOf p
        /\ calculateWinner (board st) = Some p).
Proof.
  intros Hr.
  destruct (reachable_invariants st Hr) as [Hl _].
  destruct (reachable_coherent st Hr) as (_ & Hw & _).
  assert (Hcw : forall p, calculateWinner (board st) = Some p ->
                          p = opponentOf (currentPlayer st)).
  { intros p E. apply calculateWinner_Some in E.
    destruct E as (l & Hin & Hh). exact (Hl l p Hin Hh). }
  split.
  - intros l q Hin Hh. split; [exact (Hl l q Hin Hh)|].
    rewrite Hw. unfold outcomeOf.
    destruct (calculateWinner (board st)) as [p|] eqn:E.
    + rewrite (Hcw p eq_refl). now rewrite (Hl l q Hin Hh).
    + now rewrite (proj1 (calculateWinner_None _) E l q Hin) in Hh.
  - intros p Hp. rewrite Hw in Hp. unfold outcomeOf in Hp.
    destruct (calculateWinner (board st)) as [w|] eqn:E.
    + injection Hp as ->. split; [|reflexivity].
      rewrite (Hcw p eq_refl). now rewrite opponentOf_involutive.
    + now destruct (boardFull (board st)).
Qed.

(** X completes the top row on the fifth move. *)
Lemma winner_moved_last_witness :
  currentPlayer (move (move (move (move (move initial 0) 3) 1) 4) 2)
  = opponentOf X
  /\ calculateWinner
       (board (move (move (move (move (move initial 0) 3) 1) 4) 2))
     = Some X.
Proof.
  apply (winner_moved_last
           (move (move (move (move (move initial 0) 3) 1) 4) 2)).
  - apply (reach_step (move (move (move (move initial 0) 3) 1) 4)
             (Click 2) _ []); [|reflexivity].
    apply (reach_step (move (move (move initial 0) 3) 1)
             (Click 4) _ []); [|reflexivity].
    apply (reach_step (move (move initial 0) 3) (Click 1) _ []);
      [|reflexivity].
    apply (reach_step (move initial 0) (Click 3) _ []); [|reflexivity].
    apply (reach_step initial (Click 0) _ []); [|reflexivity].
    apply reach_initial.
  - reflexivity.
Defined.

(** X9.  In every reachable state X has as many marks as O, or one more
    when O is to move, and the three counts add up to nine; an accepted
    move fills exactly one null square. *)
Theorem marks_balanced (st : State) :
  reachable st ->
  countCell (Some X) (board st)
  = (countCell (Some O) (board st) + (if xIsNext st then 0 else 1))%nat
  /\ (countCell (Some X) (board st) + countCell (Some O) (board st)
      + countCell None (board st) = 9)%nat
  /\ (forall index, accepts st index = true ->
        (countCell None (board (move st index)) + 1
         = countCell None (board st))%nat).
Proof.
  intros Hr.
  destruct (reachable_invariants st Hr) as [_ Hb].
  destruct (reachable_coherent st Hr) as (Hwf & _).
  split; [exact Hb|]. split.
  - rewrite countCell_total. exact Hwf.
  - intros index A. rewrite (move_board st index A).
    pose proof (countCell_insert None (board st) index None
                  (Some (currentPlayer st)) (accepts_null st index A)) as H.
    simpl in H. lia.
Qed.

Lemma marks_balanced_witness :
  countCell (Some X) (board (move initial 4))
  = (countCell (Some O) (board (move initial 4)) + 1)%nat.
Proof.
  apply (marks_balanced (move initial 4)).
  apply (reach_step initial (Click 4) _ []); [apply reach_initial|reflexivity].
Defined.

(** X10.  In every reachable state the board has nine squares and the
    [winner] state is the outcome the board gives; so the game is still
    on exactly when no line is held and some square is null, and a full
    board is always a finished game. *)
Theorem winner_agrees_with_board (st : State) :
  reachable st ->
  wellFormed (board st)
  /\ winner st = outcomeOf (board st)
  /\ (gameOver st = false <->
      calculateWinner (board st) = None
      /\ exists i, board st !! i = Some None).
Proof.
  intros Hr. destruct (reachable_coherent st Hr) as (Hwf & Hw & _).
  split; [exact Hwf|]. split; [exact Hw|].
  unfold gameOver. rewrite Hw. split.
  - destruct (outcomeOf (board st)) eqn:E; [discriminate|]. intros _.
    apply outcomeOf_None in E. destruct E as [E F].
    split; [exact E|now apply boardFull_false].
  - intros [E [i Hi]]. unfold outcomeOf. rewrite E.
    destruct (boardFull (board st)) eqn:F; [|reflexivity].
    destruct (boardFull_true _ F i Hi).
Qed.

Lemma winner_agrees_with_board_witness :
  wellFormed (board (move initial 4))
  /\ winner (move initial 4) = outcomeOf (board (move initial 4))
  /\ (gameOver (move initial 4) = false <->
      calculateWinner (board (move initial 4)) = None
      /\ exists i, board (move initial 4) !! i = Some None).
Proof.
  apply winner_agrees_with_board.
  apply (reach_step initial (Click 4) _ []); [apply reach_initial|reflexivity].
Defined.

(** X11.  Whenever the automated move is armed in a reachable state, it
    is made: [findBestMove] is called once, returns a null square, an O
    is written there, and no available move had a greater [minimax]
    value.  The test [move != null] never fails there. *)
Theorem automated_move_is_made (st : State) :
  reachable st ->
  aiArmed st = true ->
  exists i,
    board st !! i = Some None
    /\ step st AiTimeout = Some (move st i, [mkCall (board st) O])
    /\ board (move st i) = <[i := Some O]> (board st)
    /\ bestValue (board st) O i.
Proof.
  intros Hr Harm.
  destruct (reachable_coherent st Hr) as (Hwf & Hw & _).
  assert (Hturn : gameOver st = false /\ currentPlayer st = O).
  { unfold aiArmed in Harm. apply andb_true_iff in Harm.
    destruct Harm as [H Hp]. apply andb_true_iff in H. destruct H as [_ Hg].
    apply negb_true_iff in Hg. apply Player_eqb_eq in Hp. now split. }
  destruct Hturn as [Hg Hp].
  destruct (step_AiTimeout_armed st Harm) as [[Hnil _]|(i & Hsel & A & E)].
  - exfalso. unfold gameOver in Hg. rewrite Hw in Hg.
    destruct (outcomeOf (board st)) eqn:Eo; [discriminate|].
    apply outcomeOf_None in Eo. destruct Eo as [_ F].
    apply boardFull_false in F. destruct F as [i Hi].
    apply getAvailableMoves_In in Hi. rewrite Hnil in Hi. destruct Hi.
  - exists i. split; [now apply accepts_null|]. split; [exact E|]. split.
    + rewrite <- Hp. now apply move_board.
    + destruct Hsel as [L|[(N & L)|(_ & _ & B)]].
      * now apply lowestWin_bestValue.
      * now apply block_bestValue.
      * destruct B as (_ & z & Hz & Hmax). exists z. split; [exact Hz|].
        intros j w Hj Hw'. now destruct (Hmax j w Hj Hw').
Qed.

(** AI mode, X on the centre square. *)
Lemma automated_move_is_made_witness :
  exists i,
    board (move aiStart 4) !! i = Some None
    /\ step (move aiStart 4) AiTimeout
       = Some (move (move aiStart 4) i, [mkCall (board (move aiStart 4)) O])
    /\ board (move (move aiStart 4) i)
       = <[i := Some O]> (board (move aiStart 4))
    /\ bestValue (board (move aiStart 4)) O i.
Proof.
  apply automated_move_is_made.
  - apply (reach_step aiStart (Click 4) _ []); [|reflexivity].
    apply (reach_step initial (ModeChange AI) _ []);
      [apply reach_initial|reflexivity].
  - reflexivity.
Defined.

(** ** The automated player never loses *)

Section NeverLoses.
Implicit Types (st : State).

(** The exploration of all games against the automated player, from the
    start of a game in AI mode, finds no state that X has won. *)
Lemma aiSafe_aiStart : aiSafe 10 aiStart = true.
Proof. vm_compute. reflexivity. Qed.

Lemma aiSafe_S n st :
  aiSafe (S n) st = true ->
  xHasWon st = false
  /\ (forall index, (index < 9)%nat -> squareDisabled st index = false ->
        aiSafe n (move st index) = true)
  /\ (aiArmed st = true ->
      exists st' calls,
        step st AiTimeout = Some (st', calls) /\ aiSafe n st' = true).
Proof.
  cbn [aiSafe]. destruct (xHasWon st); [discriminate|].
  destruct (forallb _ (seq 0 9)) eqn:F; [|discriminate].
  intros H. split; [reflexivity|]. split.
  - intros index Hlt D.
    pose proof (proj1 (forallb_forall _ _) F index) as Hi.
    cbv beta in Hi. rewrite D in Hi. apply Hi. apply in_seq. lia.
  - intros Harm. rewrite Harm in H.
    destruct (step st AiTimeout) as [[st' calls]|]; [|discriminate].
    now exists st', calls.
Qed.

Lemma aiSafe_step st e st' calls :
  coherent st ->
  (mode st = AI -> exists n, aiSafe n st = true) ->
  step st e = Some (st', calls) ->
  mode st' = AI -> exists n, aiSafe n st' = true.
Proof.
  intros (Hwf & _) Hsafe Hstep Hmode.
  assert (Hstart : exists n, aiSafe n aiStart = true).
  { exists 10%nat. apply aiSafe_aiStart. }
  destruct e as [index| |newMode|]; simpl in Hstep.
  - destruct (squareDisabled st index) eqn:D; injection Hstep as <- <-;
      [now apply Hsafe|].
    assert (Hm : mode st = AI).
    { unfold move in Hmode. rewrite winnerEffect_mode in Hmode.
      rewrite handleMove_accepted in Hmode
        by now apply squareDisabled_accepts.
      exact Hmode. }
    destruct (Hsafe Hm) as [[|n] Hn]; [discriminate|].
    exists n. apply (aiSafe_S n st Hn); [|exact D].
    apply squareDisabled_accepts, accepts_null, lookup_lt_Some in D.
    unfold wellFormed in Hwf. lia.
  - injection Hstep as <- <-. simpl in Hmode.
    destruct st as [m b x w]. simpl in Hmode. subst m. exact Hstart.
  - injection Hstep as <- <-. simpl in Hmode. subst newMode. exact Hstart.
  - destruct (aiArmed st) eqn:Harm;
      [|injection Hstep as <- <-; now apply Hsafe].
    assert (Hm : mode st = AI).
    { unfold aiArmed in Harm. apply andb_true_iff in Harm.
      destruct Harm as [H _]. apply andb_true_iff in H.
      destruct H as [H _]. now destruct (mode st). }
    destruct (Hsafe Hm) as [[|n] Hn]; [discriminate|].
    destruct (proj2 (proj2 (aiSafe_S n st Hn)) Harm)
      as (st1 & calls1 & E & Hn1).
    simpl in E. rewrite Harm in E. rewrite E in Hstep.
    injection Hstep as <- <-. now exists n.
Qed.

Lemma reachable_aiSafe st :
  reachable st -> mode st = AI -> exists n, aiSafe n st = true.
Proof.
  induction 1 as [|st e st' calls Hr IH E]; [discriminate|].
  exact (aiSafe_step _ _ _ _ (reachable_coherent st Hr) IH E).
Qed.

End NeverLoses.

(** X12.  In AI mode the human never wins: in no reachable state of AI
    mode is [winner] X, whatever squares are clicked and however
    restarts and mode changes are interleaved; a finished game there is
    a win for O or a draw. *)
Theorem automated_player_never_loses (st : State) :
  reachable st ->
  mode st = AI ->
  winner st <> Some (Won X)
  /\ (gameOver st = true -> winner st = Some (Won O) \/ winner st = Some Draw).
Proof.
  intros Hr Hm.
  destruct (reachable_aiSafe st Hr Hm) as [[|n] Hn]; [discriminate|].
  destruct (aiSafe_S n st Hn) as (Hx & _).
  unfold xHasWon in Hx. unfold gameOver.
  destruct (winner st) as [[[]|]|]; try discriminate; split;
    try discriminate; auto.
Qed.

(** AI mode: X takes a corner, O answers, X takes the opposite corner. *)
Lemma automated_player_never_loses_witness :
  winner (move (move (move aiStart 0) 4) 8) <> Some (Won X).
Proof.
  apply (automated_player_never_loses (move (move (move aiStart 0) 4) 8));
    [|reflexivity].
  apply (reach_step (move (move aiStart 0) 4) (Click 8) _ []); [|reflexivity].
  apply (reach_step (move aiStart 0) AiTimeout _
           [mkCall (board (move aiStart 0)) O]); [|vm_compute; reflexivity].
  apply (reach_step aiStart (Click 0) _ []); [|reflexivity].
  apply (reach_step initial (ModeChange AI) _ []);
    [apply reach_initial|reflexivity].
Defined.

(** ** Interface *)

(** X13.  A click on a disabled square does nothing; a click that the
    interface lets through is always accepted by [handleMove] and
    changes the state.  In PVP mode a square is disabled exactly when
    [handleMove] would reject the move; in AI mode it is also disabled
    on O's turn. *)
Theorem click_guard (st : State) (index : nat) :
  (squareDisabled st index = true -> step st (Click index) = Some (st, []))
  /\ (squareDisabled st index = false ->
      accepts st index = true
      /\ step st (Click index) = Some (move st index, [])
      /\ move st index <> st)
  /\ (mode st = PVP -> squareDisabled st index = negb (accepts st index))
  /\ (mode st = AI ->
      squareDisabled st index
      = negb (accepts st index) || Player_eqb (currentPlayer st) O).
Proof.
  split; [|split; [|split]].
  - intros D. simpl. now rewrite D.
  - intros D. pose proof (squareDisabled_accepts st index D) as A.
    split; [exact A|]. split; [simpl; now rewrite D|].
    intros E. apply (f_equal xIsNext) in E. unfold move in E.
    rewrite winnerEffect_xIsNext, (handleMove_accepted st index A) in E.
    simpl in E. now destruct (xIsNext st).
  - intros Hm. unfold squareDisabled, accepts. rewrite Hm. simpl.
    destruct (gameOver st), (isNull (board st) index); reflexivity.
  - intros Hm. unfold squareDisabled, accepts. rewrite Hm. simpl.
    destruct (gameOver st), (isNull (board st) index),
      (Player_eqb (currentPlayer st) O); reflexivity.
Qed.

Lemma click_guard_witness :
  accepts initial 4 = true
  /\ step initial (Click 4) = Some (move initial 4, [])
  /\ move initial 4 <> initial.
Proof.
  apply (click_guard initial 4). reflexivity.
Defined.

(** X14.  The status message tells the outcome: two states with the
    same message have the same [winner]; while the game is on they also
    have the same player to move and the same mode, and after a win of O
    the same mode. *)
Theorem statusMessage_tells_outcome (st st' : State) :
  statusMessage st = statusMessage st' ->
  winner st = winner st'
  /\ (winner st = None ->
      currentPlayer st = currentPlayer st' /\ mode st = mode st')
  /\ (winner st = Some (Won O) -> mode st = mode st').
Proof.
  destruct st as [m b x w], st' as [m' b' x' w'].
  unfold statusMessage, currentPlayer. simpl.
  destruct w as [[[]|]|], w' as [[[]|]|], m, m', x, x'; simpl;
    intros H; try discriminate H;
    repeat split; intros; try reflexivity; try discriminate.
Qed.

Lemma statusMessage_tells_outcome_witness :
  winner (move initial 4) = winner (move initial 0).
Proof.
  apply (statusMessage_tells_outcome (move initial 4) (move initial 0)).
  reflexivity.
Defined.

(** X15.  [toggleTheme] always gives ['light'] or ['dark'] and is its
    own inverse exactly on those two themes; the theme chosen on mount
    is never empty, is the stored one whenever a non-empty one is
    stored, and once stored is chosen again at the next mount whatever
    the system preference is then. *)
Theorem theme_toggle_and_reload :
  (forall t, toggleTheme t = "light"%string \/ toggleTheme t = "dark"%string)
  /\ (forall t, toggleTheme (toggleTheme t) = t <->
                t = "light"%string \/ t = "dark"%string)
  /\ (forall stored matches, initialTheme stored matches <> EmptyString)
  /\ (forall s matches, s <> EmptyString ->
        initialTheme (Some s) matches = s)
  /\ (forall stored matches matches',
        initialTheme (Some (initialTheme stored matches)) matches'
        = initialTheme stored matches).
Proof.
  assert (Hne : forall stored matches, initialTheme stored matches <> EmptyString).
  { intros stored matches. unfold initialTheme.
    destruct stored as [s|].
    - destruct (String.eqb_spec s EmptyString); [|assumption].
      destruct matches as [[]|]; discriminate.
    - destruct matches as [[]|]; discriminate. }
  assert (Hkeep : forall s matches, s <> EmptyString ->
                    initialTheme (Some s) matches = s).
  { intros s matches Hs. unfold initialTheme.
    destruct (String.eqb_spec s EmptyString); [contradiction|reflexivity]. }
  split; [|split; [|split; [|split]]].
  - intros t. unfold toggleTheme. destruct (String.eqb t "light"); auto.
  - intros t. unfold toggleTheme. split.
    + destruct (String.eqb_spec t "light"); [now left|].
      simpl. intros <-. now right.
    + intros [->| ->]; reflexivity.
  - exact Hne.
  - exact Hkeep.
  - intros stored matches matches'. apply Hkeep, Hne.
Qed.

(** X16.  The effect that follows a board change touches only [winner],
    sets it to the outcome of the board when there is one and never
    clears it; running it twice is the same as running it once. *)
Theorem winnerEffect_idempotent (st : State) :
  winnerEffect (winnerEffect st) = winnerEffect st
  /\ mode (winnerEffect st) = mode st
  /\ board (winnerEffect st) = board st
  /\ xIsNext (winnerEffect st) = xIsNext st
  /\ (outcomeOf (board st) <> None ->
      winner (winnerEffect st) = outcomeOf (board st))
  /\ (outcomeOf (board st) = None -> winnerEffect st = st).
Proof.
  rewrite (winnerEffect_outcome (winnerEffect st)).
  rewrite winnerEffect_board, winnerEffect_mode, winnerEffect_xIsNext.
  rewrite (winnerEffect_outcome st).
  destruct (outcomeOf (board st)) as [r|] eqn:E; simpl.
  - repeat split; try reflexivity. discriminate.
  - repeat split; try reflexivity; try (now rewrite E).
    intros H. now destruct H.
Qed.
